(** * The scheduling core of [ai_agent_orchestrator.py]

    A shallow embedding of the agent/task data model, of the reliability
    statistic kept by [AIAgent], of the retry supervisor
    [AIOrchestrator._execute_task_safely] and of the orchestrator's registries
    and tick, followed by the properties the specification states about them.

    Conventions of the embedding.
    - Python [int] is [Z].  Python [float] ([success_rate],
      [success_threshold]) is an exact rational [Q]: rounding is not
      modelled, and rates are compared with [==].
    - [datetime] values are [Z] (microseconds), a [timedelta] likewise.
    - Methods are functions on the value of the object they mutate.  Objects
      shared between the tick loop and the dispatched coroutines live in an
      object store ([World]), where a reference is an index.
    - The executor ([AIAgent._execute_by_type] and everything below it) is an
      external collaborator: each call is given its result, an
      [Outcome bool], from outside.
    - Logger calls and [asyncio.sleep] are recorded as [Event]s. *)

From Stdlib Require Import ZArith QArith Lia Lqa.
From stdpp Require Import base list strings.

Local Open Scope Z_scope.

(** ** Data model *)

Abbreviation datetime := Z (only parsing).
Abbreviation timedelta := Z (only parsing).

(** [timedelta(hours=1)] in microseconds. *)
Definition one_hour : timedelta := 3600 * 1000000.

Record AgentConfig := {
  agent_id : string;
  agent_type : string;
  priority : Z;
  capabilities : list string;
  max_gas : Z;
  success_threshold : Q;
  retry_attempts : Z
}.

(** [Task.status]: the source keeps a [str] and only ever writes or tests
    these four values. *)
Inductive TaskStatus := pending | executing | completed | failed.

#[global] Instance TaskStatus_eq_dec : EqDecision TaskStatus.
Proof. solve_decision. Defined.

(** [Task.priority] is [task_priority] here, [priority] being taken by
    [AgentConfig].  The payload [data] is opaque to the scheduler. *)
Record Task := {
  task_id : string;
  task_type : string;
  target_contract : string;
  execution_time : datetime;
  data : list (string * string);
  task_priority : Z;
  is_recurring : bool;
  recurring_interval : option Z;
  assigned_agent : option string;
  status : TaskStatus;
  retry_count : Z
}.

(** The [web3], [account] and [address] attributes are handles of the
    external blockchain client and are left out. *)
Record AIAgent := {
  config : AgentConfig;
  executed_tasks : Z;
  success_rate : Q;
  last_execution : datetime;
  is_active : bool
}.

(** Attribute assignment. *)
Definition set_status (s : TaskStatus) (task : Task) : Task :=
  {| task_id := task_id task; task_type := task_type task;
     target_contract := target_contract task;
     execution_time := execution_time task; data := data task;
     task_priority := task_priority task; is_recurring := is_recurring task;
     recurring_interval := recurring_interval task;
     assigned_agent := assigned_agent task; status := s;
     retry_count := retry_count task |}.

Definition set_assigned_agent (a : option string) (task : Task) : Task :=
  {| task_id := task_id task; task_type := task_type task;
     target_contract := target_contract task;
     execution_time := execution_time task; data := data task;
     task_priority := task_priority task; is_recurring := is_recurring task;
     recurring_interval := recurring_interval task;
     assigned_agent := a; status := status task;
     retry_count := retry_count task |}.

Definition set_executed_tasks (n : Z) (self : AIAgent) : AIAgent :=
  {| config := config self; executed_tasks := n;
     success_rate := success_rate self;
     last_execution := last_execution self; is_active := is_active self |}.

Definition set_success_rate (r : Q) (self : AIAgent) : AIAgent :=
  {| config := config self; executed_tasks := executed_tasks self;
     success_rate := r;
     last_execution := last_execution self; is_active := is_active self |}.

Definition set_last_execution (d : datetime) (self : AIAgent) : AIAgent :=
  {| config := config self; executed_tasks := executed_tasks self;
     success_rate := success_rate self;
     last_execution := d; is_active := is_active self |}.

(** ** Results, log records and effects *)

(** What a call does: it returns a value or raises an [Exception] (kept as
    its message). *)
Inductive Outcome (A : Type) := Returns (a : A) | Raises (e : string).
Arguments Returns {A} a.
Arguments Raises {A} e.

Inductive LogLevel := INFO | WARNING | ERROR.

(** One constructor per logger call of the scheduling core, carrying the
    values the message is formatted from. *)
Inductive Message :=
| MsgExecuting (agent task : string)
| MsgCompleted (task : string)
| MsgFailed (task : string)
| MsgExecuteError (task e : string)
| MsgCompletedBy (task agent : string)
| MsgRetry (task : string) (retry max_retries : Z)
| MsgFailedAfter (task : string) (max_retries : Z)
| MsgSupervisorError (e : string)
| MsgRegistered (agent kind : string)
| MsgReady (agent : string)
| MsgScheduled (task kind : string)
| MsgWorkflow (workflow : string) (size : nat)
| MsgStarted
| MsgStopped
| MsgLoopError (e : string)
| MsgInactive (agent : string) (duration : timedelta)
| MsgLowSuccessRate (agent : string) (rate : Q).

Inductive Event :=
| Log (level : LogLevel) (msg : Message)
| Sleep (seconds : Z).

(** ** [AIAgent] *)

Definition AIAgent__init__ (cfg : AgentConfig) (now : datetime) : AIAgent :=
  {| config := cfg; executed_tasks := 0; success_rate := 100;
     last_execution := now; is_active := true |}.

Definition _update_success_rate (self : AIAgent) (success : bool) : AIAgent :=
  if executed_tasks self =? 0 then
    set_success_rate (if success then 100 else 0)%Q self
  else
    let current_rate := success_rate self in
    let new_rate :=
      ((current_rate * inject_Z (executed_tasks self - 1)
        + (if success then 100 else 0)) / inject_Z (executed_tasks self))%Q in
    set_success_rate new_rate self.

(** [exec] is what [self._execute_by_type(task, contract)] (or the contract
    lookup before it) does in this call, [now] what [datetime.now()] reads
    after it.  The [except Exception] clause turns a raise into [False], so
    the call itself always returns. *)
Definition execute_task (self : AIAgent) (task : Task)
    (exec : Outcome bool) (now : datetime)
  : AIAgent * Task * list Event * Outcome bool :=
  let started := Log INFO (MsgExecuting (agent_id (config self)) (task_id task)) in
  match exec with
  | Returns success =>
      if success then
        let self := set_executed_tasks (executed_tasks self + 1) self in
        let self := _update_success_rate self true in
        let task := set_status completed task in
        let self := set_last_execution now self in
        (self, task, [started; Log INFO (MsgCompleted (task_id task))],
         Returns true)
      else
        let self := _update_success_rate self false in
        let task := set_status failed task in
        let self := set_last_execution now self in
        (self, task, [started; Log ERROR (MsgFailed (task_id task))],
         Returns false)
  | Raises e =>
      let self := _update_success_rate self false in
      let task := set_status failed task in
      (self, task, [started; Log ERROR (MsgExecuteError (task_id task) e)],
       Returns false)
  end.

(** The agent after a sequence of recorded outcomes, one [execute_task] call
    each. *)
Fixpoint record_outcomes (self : AIAgent) (task : Task)
    (calls : list (Outcome bool * datetime)) : AIAgent :=
  match calls with
  | [] => self
  | (exec, now) :: calls =>
      record_outcomes (execute_task self task exec now).1.1.1 task calls
  end.

Definition is_success (exec : Outcome bool) : bool :=
  match exec with Returns true => true | _ => false end.

Definition successes (calls : list (Outcome bool * datetime)) : Z :=
  Z.of_nat (length (filter (fun c => is_success c.1 = true) calls)).

Definition in_percent_range (r : Q) : Prop := (0 <= r /\ r <= 100)%Q.

(** ** The retry supervisor, run on its own *)

(** [range(stop)]. *)
Definition range (stop : Z) : list Z := seqZ 0 stop.

Inductive Control := Continue | Break.

(** The body of [for attempt in range(max_retries + 1)] in
    [_execute_task_safely].  [agent.execute_task] never raises (see
    [execute_task]); the [except Exception] clause is kept as written. *)
Definition attempt_body (max_retries attempt : Z) (agent : AIAgent)
    (task : Task) (exec : Outcome bool) (now : datetime)
  : AIAgent * Task * list Event * Control :=
  let '(agent, task, evs, result) := execute_task agent task exec now in
  match result with
  | Returns success =>
      if success then
        (agent, task,
         evs ++ [Log INFO (MsgCompletedBy (task_id task) (agent_id (config agent)))],
         Break)
      else if attempt <? max_retries then
        (agent, task,
         evs ++ [Log WARNING (MsgRetry (task_id task) (attempt + 1) max_retries);
                 Sleep (2 ^ attempt)],
         Continue)
      else
        (agent, task,
         evs ++ [Log ERROR (MsgFailedAfter (task_id task) max_retries)],
         Continue)
  | Raises e =>
      if attempt =? max_retries then
        (agent, set_status failed task,
         evs ++ [Log ERROR (MsgSupervisorError e)], Break)
      else
        (agent, task, evs ++ [Log ERROR (MsgSupervisorError e)], Continue)
  end.

(** The rest of the [for] loop over the attempts not yet made.  [env attempt]
    is what the executor does at that attempt and the clock read after it. *)
Fixpoint run_attempts (max_retries : Z) (env : Z -> Outcome bool * datetime)
    (attempts : list Z) (agent : AIAgent) (task : Task)
  : AIAgent * Task * list Event :=
  match attempts with
  | [] => (agent, task, [])
  | attempt :: attempts =>
      let '(agent, task, evs, control) :=
        attempt_body max_retries attempt agent task (env attempt).1 (env attempt).2 in
      match control with
      | Break => (agent, task, evs)
      | Continue =>
          let '(agent, task, evs') :=
            run_attempts max_retries env attempts agent task in
          (agent, task, evs ++ evs')
      end
  end.

Definition _execute_task_safely (agent : AIAgent) (task : Task)
    (env : Z -> Outcome bool * datetime) : AIAgent * Task * list Event :=
  let max_retries := retry_attempts (config agent) in
  run_attempts max_retries env (range (max_retries + 1)) agent task.

(** What an observer sees of a supervised run: the start of each
    [execute_task] call and each backoff sleep, in order. *)
Inductive Beat := Attempt | Delay (seconds : Z).

Definition beat_of (e : Event) : option Beat :=
  match e with
  | Log INFO (MsgExecuting _ _) => Some Attempt
  | Sleep seconds => Some (Delay seconds)
  | _ => None
  end.

Definition timeline (evs : list Event) : list Beat := omap beat_of evs.

#[global] Instance Beat_eq_dec : EqDecision Beat.
Proof. solve_decision. Defined.

Definition attempts_made (evs : list Event) : Z :=
  Z.of_nat (length (filter (fun b => b = Attempt) (timeline evs))).

Definition delay_of (b : Beat) : Z :=
  match b with Attempt => 0 | Delay seconds => seconds end.

Definition total_backoff (evs : list Event) : Z :=
  foldr Z.add 0 (delay_of <$> timeline evs).

(** A failed attempt numbered [attempt] with attempts remaining. *)
Definition failed_retried (attempt : Z) : list Beat :=
  [Attempt; Delay (2 ^ attempt)].

Definition fails (env : Z -> Outcome bool * datetime) (attempt : Z) : Prop :=
  is_success (env attempt).1 = false.

Definition succeeds (env : Z -> Outcome bool * datetime) (attempt : Z) : Prop :=
  is_success (env attempt).1 = true.

(** ** Python [dict]

    Insertion-ordered; assigning to a key that is present replaces the value
    and keeps the key's position, assigning to a new key appends it. *)
Definition dict (V : Type) : Type := list (string * V).

Fixpoint dict_get {V} (d : dict V) (k : string) : option V :=
  match d with
  | [] => None
  | (k', v) :: d => if String.eqb k' k then Some v else dict_get d k
  end.

Fixpoint dict_set {V} (d : dict V) (k : string) (v : V) : dict V :=
  match d with
  | [] => [(k, v)]
  | (k', v') :: d =>
      if String.eqb k' k then (k', v) :: d else (k', v') :: dict_set d k v
  end.

Definition dict_items {V} (d : dict V) : list (string * V) := d.
Definition dict_values {V} (d : dict V) : list V := d.*2.

(** [max(iterable, key=...)]: the running maximum is replaced only by an
    item whose key is greater ([>]), so the first of the items with the
    greatest key is returned; [ValueError] on an empty iterable. *)
Fixpoint max_from {A K} (gt : K -> K -> bool) (key : A -> K)
    (maxitem : A) (items : list A) : A :=
  match items with
  | [] => maxitem
  | item :: items =>
      max_from gt key (if gt (key item) (key maxitem) then item else maxitem) items
  end.

Definition py_max {A K} (gt : K -> K -> bool) (key : A -> K)
    (items : list A) : Outcome A :=
  match items with
  | [] => Raises "ValueError"
  | item :: items => Returns (max_from gt key item items)
  end.

Definition Qlt_bool (x y : Q) : bool := negb (Qle_bool y x).

(** [>] on the tuples [(priority, success_rate)]. *)
Definition key_gt (k1 k2 : Z * Q) : bool :=
  if k1.1 =? k2.1 then Qlt_bool k2.2 k1.2 else k2.1 <? k1.1.

(** ** The orchestrator and the objects it shares with its coroutines *)

(** A reference to an object: its index in the store.  Python has no
    dangling reference; where a function below looks a reference up, its
    [None] case is there for totality only. *)
Abbreviation ref := nat (only parsing).

(** A coroutine created by [asyncio.create_task(self._execute_task_safely(
    best_agent, task))]: the two objects it holds, [max_retries] (read from
    the agent's configuration, which nothing mutates) and the attempts of its
    [for] loop that have not started.  It has returned when none is left. *)
Record Supervisor := {
  sup_agent : ref;
  sup_task : ref;
  sup_max_retries : Z;
  sup_attempts : list Z
}.

(** The [AIAgent] and [Task] objects in existence, the attributes of the one
    [AIOrchestrator] ([agents], [tasks], [workflows], [is_running]; its
    [web3], [contract_address] and [contract_abi] are left out), the
    coroutines created so far and what has been logged and slept. *)
Record World := {
  agent_objects : list AIAgent;
  task_objects : list Task;
  agents : dict ref;
  tasks : dict ref;
  workflows : dict (list string);
  is_running : bool;
  coroutines : list Supervisor;
  trace : list Event
}.

Definition AIOrchestrator__init__ : World :=
  {| agent_objects := []; task_objects := []; agents := []; tasks := [];
     workflows := []; is_running := false; coroutines := []; trace := [] |}.

Definition with_agent_objects (f : list AIAgent -> list AIAgent) (w : World) :=
  {| agent_objects := f (agent_objects w); task_objects := task_objects w;
     agents := agents w; tasks := tasks w; workflows := workflows w;
     is_running := is_running w; coroutines := coroutines w;
     trace := trace w |}.

Definition with_task_objects (f : list Task -> list Task) (w : World) :=
  {| agent_objects := agent_objects w; task_objects := f (task_objects w);
     agents := agents w; tasks := tasks w; workflows := workflows w;
     is_running := is_running w; coroutines := coroutines w;
     trace := trace w |}.

Definition with_agents (f : dict ref -> dict ref) (w : World) :=
  {| agent_objects := agent_objects w; task_objects := task_objects w;
     agents := f (agents w); tasks := tasks w; workflows := workflows w;
     is_running := is_running w; coroutines := coroutines w;
     trace := trace w |}.

Definition with_tasks (f : dict ref -> dict ref) (w : World) :=
  {| agent_objects := agent_objects w; task_objects := task_objects w;
     agents := agents w; tasks := f (tasks w); workflows := workflows w;
     is_running := is_running w; coroutines := coroutines w;
     trace := trace w |}.

Definition with_workflows
    (f : dict (list string) -> dict (list string)) (w : World) :=
  {| agent_objects := agent_objects w; task_objects := task_objects w;
     agents := agents w; tasks := tasks w; workflows := f (workflows w);
     is_running := is_running w; coroutines := coroutines w;
     trace := trace w |}.

Definition with_is_running (b : bool) (w : World) :=
  {| agent_objects := agent_objects w; task_objects := task_objects w;
     agents := agents w; tasks := tasks w; workflows := workflows w;
     is_running := b; coroutines := coroutines w; trace := trace w |}.

Definition with_coroutines
    (f : list Supervisor -> list Supervisor) (w : World) :=
  {| agent_objects := agent_objects w; task_objects := task_objects w;
     agents := agents w; tasks := tasks w; workflows := workflows w;
     is_running := is_running w; coroutines := f (coroutines w);
     trace := trace w |}.

Definition emit (evs : list Event) (w : World) :=
  {| agent_objects := agent_objects w; task_objects := task_objects w;
     agents := agents w; tasks := tasks w; workflows := workflows w;
     is_running := is_running w; coroutines := coroutines w;
     trace := trace w ++ evs |}.

(** A method of the orchestrator: it mutates the world and returns or
    raises; what it mutated before raising stays mutated. *)
Definition M (A : Type) : Type := World -> Outcome A * World.

#[global] Instance M_ret : MRet M := fun A a w => (Returns a, w).

#[global] Instance M_bind : MBind M := fun A B f m w =>
  match m w with
  | (Returns a, w) => f a w
  | (Raises e, w) => (Raises e, w)
  end.

Definition get_world : M World := fun w => (Returns w, w).
Definition modify (f : World -> World) : M unit := fun w => (Returns tt, f w).
Definition lift {A} (o : Outcome A) : M A := fun w => (o, w).

Definition try_except {A} (body : M A) (handler : string -> M A) : M A :=
  fun w =>
    match body w with
    | (Returns a, w) => (Returns a, w)
    | (Raises e, w) => handler e w
    end.

(** [for x in items: body(x)], over the items as they were when the loop
    started (no body below inserts into or deletes from the dictionary it
    iterates). *)
Fixpoint for_each {A} (items : list A) (body : A -> M unit) : M unit :=
  match items with
  | [] => mret tt
  | x :: items => body x ;; for_each items body
  end.

Definition logger (level : LogLevel) (msg : Message) : M unit :=
  modify (emit [Log level msg]).

Definition asyncio_sleep (seconds : Z) : M unit :=
  modify (emit [Sleep seconds]).

#[global] Instance Outcome_ret : MRet Outcome := fun A a => Returns a.

#[global] Instance Outcome_bind : MBind Outcome := fun A B f o =>
  match o with
  | Returns a => f a
  | Raises e => Raises e
  end.

(** ** [AIOrchestrator] *)

(** Object creation by a constructor call: the new object's reference. *)
Definition new_agent (agent : AIAgent) : M ref := fun w =>
  (Returns (length (agent_objects w)),
   with_agent_objects (fun objects => objects ++ [agent]) w).

Definition new_task (task : Task) : M ref := fun w =>
  (Returns (length (task_objects w)),
   with_task_objects (fun objects => objects ++ [task]) w).

(** The calls into the blockchain client ([Account.from_key], the contract
    handle) are taken to succeed. *)
Definition register_agent (cfg : AgentConfig) (now : datetime) : M unit :=
  agent ← new_agent (AIAgent__init__ cfg now);
  modify (with_agents (fun d => dict_set d (agent_id cfg) agent));;
  logger INFO (MsgRegistered (agent_id cfg) (agent_type cfg));;
  logger INFO (MsgReady (agent_id cfg)).

(** [task] refers to a [Task] object the caller has constructed. *)
Definition schedule_task (task : ref) : M unit :=
  w ← get_world;
  match task_objects w !! task with
  | Some t =>
      modify (with_tasks (fun d => dict_set d (task_id t) task));;
      logger INFO (MsgScheduled (task_id t) (task_type t))
  | None => mret tt
  end.

Definition create_workflow (workflow_id : string)
    (task_sequence : list string) : M unit :=
  modify (with_workflows (fun d => dict_set d workflow_id task_sequence));;
  logger INFO (MsgWorkflow workflow_id (length task_sequence)).

(** The test of the [for] loop in [_select_optimal_agent]. *)
Definition eligible (w : World) (task : Task) (agent : ref) : bool :=
  match agent_objects w !! agent with
  | Some a =>
      is_active a
      && bool_decide (task_type task ∈ capabilities (config a))
      && Qle_bool (success_threshold (config a)) (success_rate a)
  | None => false
  end.

Definition eligible_agents (w : World) (task : Task) : list ref :=
  filter (fun agent => eligible w task agent = true) (dict_values (agents w)).

(** [lambda a: (a.config.priority, a.success_rate)]. *)
Definition selection_key (w : World) (agent : ref) : Z * Q :=
  match agent_objects w !! agent with
  | Some a => (priority (config a), success_rate a)
  | None => (0, 0%Q)
  end.

Definition _select_optimal_agent (w : World) (task : Task)
  : Outcome (option ref) :=
  match eligible_agents w task with
  | [] => Returns None
  | _ :: _ =>
      best_agent ← py_max key_gt (selection_key w) (eligible_agents w task);
      Returns (Some best_agent)
  end.

Definition create_task (c : Supervisor) : M unit :=
  modify (with_coroutines (fun cs => cs ++ [c])).

(** The body of the [for] loop of [_process_pending_tasks]. *)
Definition dispatch_if_due (current_time : datetime) (task : ref) : M unit :=
  w ← get_world;
  match task_objects w !! task with
  | Some t =>
      if bool_decide (status t = pending) && (execution_time t <=? current_time)
      then
        best_agent ← lift (_select_optimal_agent w t);
        match best_agent with
        | Some agent =>
            match agent_objects w !! agent with
            | Some a =>
                modify (with_task_objects (fun objects =>
                  <[task := set_status executing
                              (set_assigned_agent (Some (agent_id (config a))) t)]>
                    objects));;
                create_task
                  {| sup_agent := agent; sup_task := task;
                     sup_max_retries := retry_attempts (config a);
                     sup_attempts := range (retry_attempts (config a) + 1) |}
            | None => mret tt
            end
        | None => mret tt
        end
      else mret tt
  | None => mret tt
  end.

Definition _process_pending_tasks (current_time : datetime) : M unit :=
  w ← get_world;
  for_each (dict_items (tasks w)) (fun item => dispatch_if_due current_time item.2).

Definition _process_workflows : M unit := mret tt.

(** The body of the [for] loop of [_monitor_agents]; [now] is the clock it
    reads. *)
Definition monitor_agent (now : datetime) (name : string) (agent : ref)
  : M unit :=
  w ← get_world;
  match agent_objects w !! agent with
  | Some a =>
      let inactive_duration := now - last_execution a in
      (if one_hour <? inactive_duration
       then logger WARNING (MsgInactive name inactive_duration)
       else mret tt);;
      (if Qlt_bool (success_rate a) 80 && (10 <? executed_tasks a)
       then logger WARNING (MsgLowSuccessRate name (success_rate a))
       else mret tt)
  | None => mret tt
  end.

Definition _monitor_agents (now : datetime) : M unit :=
  w ← get_world;
  for_each (dict_items (agents w)) (fun item => monitor_agent now item.1 item.2).

(** [run_orchestration_loop] up to its [while], one iteration of the
    [while] (the cycle body under its [try], and the test of
    [self.is_running] before it), and [stop]. *)
Definition start : M unit :=
  modify (with_is_running true);;
  logger INFO MsgStarted.

Definition cycle (now : datetime) : M unit :=
  w ← get_world;
  if is_running w then
    try_except
      (_process_pending_tasks now;;
       _process_workflows;;
       _monitor_agents now;;
       asyncio_sleep 10)
      (fun e => logger ERROR (MsgLoopError e);; asyncio_sleep 30)
  else mret tt.

Definition stop : M unit :=
  modify (with_is_running false);;
  logger INFO MsgStopped.

Definition set_attempts (attempts : list Z) (c : Supervisor) : Supervisor :=
  {| sup_agent := sup_agent c; sup_task := sup_task c;
     sup_max_retries := sup_max_retries c; sup_attempts := attempts |}.

(** The event loop runs coroutine [i] from where it is suspended (at its
    creation or in [asyncio.sleep]) to its next suspension or its end: one
    iteration of its [for] loop.  Nothing in [execute_task] yields to the
    event loop, so the iteration is not interleaved with anything else. *)
Definition resume (i : nat) (exec : Outcome bool) (now : datetime)
    (w : World) : World :=
  match coroutines w !! i with
  | Some c =>
      match sup_attempts c with
      | attempt :: rest =>
          match agent_objects w !! sup_agent c, task_objects w !! sup_task c with
          | Some agent, Some task =>
              let '(agent, task, evs, control) :=
                attempt_body (sup_max_retries c) attempt agent task exec now in
              let rest := match control with Break => [] | Continue => rest end in
              emit evs
                (with_coroutines (fun cs => <[i := set_attempts rest c]> cs)
                   (with_task_objects (fun objects => <[sup_task c := task]> objects)
                      (with_agent_objects
                         (fun objects => <[sup_agent c := agent]> objects) w)))
          | _, _ => w
          end
      | [] => w
      end
  | None => w
  end.

(** What can happen to the system: calls from outside, iterations of the
    orchestration loop and resumptions of dispatched coroutines, in any
    order. *)
Inductive Action :=
| NewTask (task : Task)
| RegisterAgent (cfg : AgentConfig) (now : datetime)
| ScheduleTask (task : ref)
| CreateWorkflow (workflow_id : string) (task_sequence : list string)
| Start
| Cycle (now : datetime)
| Resume (i : nat) (exec : Outcome bool) (now : datetime)
| Stop.

Definition step (a : Action) (w : World) : World :=
  match a with
  | NewTask task => (new_task task w).2
  | RegisterAgent cfg now => (register_agent cfg now w).2
  | ScheduleTask task => (schedule_task task w).2
  | CreateWorkflow workflow_id task_sequence =>
      (create_workflow workflow_id task_sequence w).2
  | Start => (start w).2
  | Cycle now => (cycle now w).2
  | Resume i exec now => resume i exec now w
  | Stop => (stop w).2
  end.

Fixpoint run (acts : list Action) (w : World) : World :=
  match acts with
  | [] => w
  | a :: acts => run acts (step a w)
  end.

Definition reachable (w : World) : Prop :=
  exists acts, w = run acts AIOrchestrator__init__.

(** Coroutine [i] resumed once for each of [attempts], nothing else running
    in between. *)
Fixpoint resume_through (i : nat) (env : Z -> Outcome bool * datetime)
    (attempts : list Z) (w : World) : World :=
  match attempts with
  | [] => w
  | attempt :: attempts =>
      resume_through i env attempts
        (resume i (env attempt).1 (env attempt).2 w)
  end.

(** ** Vocabulary of the properties *)

Definition status_of (w : World) (task : ref) : option TaskStatus :=
  status <$> task_objects w !! task.

(** The supervisor of [task] has attempts left. *)
Definition supervised (w : World) (task : ref) : Prop :=
  exists c, c ∈ coroutines w /\ sup_task c = task /\ sup_attempts c <> [].

(** The transitions of [Task.status] the scheduler and the retry supervisor
    make. *)
Inductive transition : TaskStatus -> TaskStatus -> Prop :=
| dispatched : transition pending executing
| first_success : transition executing completed
| attempt_failure : transition executing failed
| retry_success : transition failed completed.

(** At every [Cycle] of [acts], started from [w], no agent is eligible for
    the task object [task]. *)
Fixpoint starved (task : ref) (acts : list Action) (w : World) : Prop :=
  match acts with
  | [] => True
  | a :: acts =>
      (forall now t, a = Cycle now -> task_objects w !! task = Some t ->
         eligible_agents w t = [])
      /\ starved task acts (step a w)
  end.

(** Lexicographic order on selection keys. *)
Definition key_le (k1 k2 : Z * Q) : Prop :=
  k1.1 < k2.1 \/ (k1.1 = k2.1 /\ (k1.2 <= k2.2)%Q).

Definition is_warning (e : Event) : Prop :=
  exists msg, e = Log WARNING msg.

(** The beats of a failed attempt under [max_retries]. *)
Definition failed_attempt (max_retries attempt : Z) : list Beat :=
  Attempt :: (if attempt <? max_retries then [Delay (2 ^ attempt)] else []).

(** [2^0 + 2^1 + ... + 2^(r-1)]. *)
Definition geometric_sum (r : Z) : Z :=
  foldr Z.add 0 ((fun attempt => 2 ^ attempt) <$> range r).

Definition key_lt (k1 k2 : Z * Q) : Prop :=
  k1.1 < k2.1 \/ (k1.1 = k2.1 /\ (k1.2 < k2.2)%Q).

(** [w'] differs from [w] in its trace at most. *)
Definition same_state (w w' : World) : Prop :=
  agent_objects w' = agent_objects w /\ task_objects w' = task_objects w
  /\ agents w' = agents w /\ tasks w' = tasks w
  /\ workflows w' = workflows w /\ is_running w' = is_running w
  /\ coroutines w' = coroutines w.

Definition live (c : Supervisor) : Prop := sup_attempts c <> [].

(** Every supervisor with attempts left watches a task that is [executing]
    or [failed], and no other such supervisor watches the same task. *)
Definition supervision_invariant (w : World) : Prop :=
  (forall i c, coroutines w !! i = Some c -> live c ->
     status_of w (sup_task c) = Some executing
     \/ status_of w (sup_task c) = Some failed)
  /\ (forall i j c c',
        coroutines w !! i = Some c -> coroutines w !! j = Some c' ->
        live c -> live c' -> sup_task c = sup_task c' -> i = j).

(** What a pass of [_process_pending_tasks] may have done to [w0]: agents
    and registries are as they were; a task object is as it was or went from
    [pending], with some agent eligible for it, to [executing]; new
    supervisors watch tasks that were [pending]. *)
Definition tick_effect (w0 w : World) : Prop :=
  agent_objects w = agent_objects w0 /\ agents w = agents w0
  /\ tasks w = tasks w0 /\ workflows w = workflows w0
  /\ is_running w = is_running w0
  /\ (forall r,
        task_objects w !! r = task_objects w0 !! r
        \/ exists t t',
             task_objects w0 !! r = Some t /\ status t = pending
             /\ eligible_agents w0 t <> []
             /\ task_objects w !! r = Some t' /\ status t' = executing)
  /\ (exists new,
        coroutines w = coroutines w0 ++ new
        /\ Forall (fun c => status_of w0 (sup_task c) = Some pending) new).

(** ** The configuration of [main()] *)

Definition token_agent_config : AgentConfig :=
  {| agent_id := "token_distributor"; agent_type := "TOKEN_MANAGEMENT";
     priority := 1;
     capabilities := ["TOKEN_DISTRIBUTION"; "COMMISSION_CALCULATION"];
     max_gas := 2000000; success_threshold := 85; retry_attempts := 3 |}.

Definition liquidity_agent_config : AgentConfig :=
  {| agent_id := "liquidity_manager"; agent_type := "LIQUIDITY_MANAGEMENT";
     priority := 2; capabilities := ["LIQUIDITY_MANAGEMENT"];
     max_gas := 3000000; success_threshold := 90; retry_attempts := 2 |}.

Definition payment_agent_config : AgentConfig :=
  {| agent_id := "payment_processor"; agent_type := "PAYMENT_PROCESSING";
     priority := 1;
     capabilities := ["PAYMENT_PROCESSING"; "KYC_VERIFICATION"];
     max_gas := 1500000; success_threshold := 95; retry_attempts := 3 |}.

(** [token_task], created at time [now]. *)
Definition token_task (now : datetime) : Task :=
  {| task_id := "distribute_001"; task_type := "TOKEN_DISTRIBUTION";
     target_contract := "0x..."; execution_time := now;
     data := [("recipient", "0x..."); ("amount", "1000000000000000000000");
              ("reason", "Pack purchase reward")];
     task_priority := 1; is_recurring := false; recurring_interval := None;
     assigned_agent := None; status := pending; retry_count := 0 |}.

(** ** The executor: [_execute_by_type] and its handlers *)

(** [d[k]]: [KeyError] when the key is missing. *)
Definition dict_getitem {V} (d : dict V) (k : string) : Outcome V :=
  match dict_get d k with
  | Some v => Returns v
  | None => Raises "KeyError"
  end.

(** Log records of the handlers. *)
Inductive HandlerMessage :=
| MsgUnknownTaskType (kind : string)
| MsgPocLocationRejected (user : string)
| MsgPocNftCreated (user : string)
| MsgPocFailed (e : string).

Definition _validate_poc_location (user lat lng beacon_id : string) : bool :=
  true.

(** [timestamp_data] is represented by the user it records. *)
Definition _mint_poc_nft (user : string)
  : bool * list (LogLevel * HandlerMessage) :=
  (true, [(INFO, MsgPocNftCreated user)]).

(** The [try] block of [_handle_poc_verification]: the four subscriptions,
    the location check and the minting. *)
Definition poc_verification_body (task : Task)
  : Outcome (bool * list (LogLevel * HandlerMessage)) :=
  user ← dict_getitem (data task) "user";
  latitude ← dict_getitem (data task) "latitude";
  longitude ← dict_getitem (data task) "longitude";
  beacon_id ← dict_getitem (data task) "beacon_id";
  if negb (_validate_poc_location user latitude longitude beacon_id) then
    Returns (false, [(WARNING, MsgPocLocationRejected user)])
  else
    let minted := _mint_poc_nft user in
    Returns (true, minted.2).

Definition _handle_poc_verification (task : Task)
  : bool * list (LogLevel * HandlerMessage) :=
  match poc_verification_body task with
  | Returns result => result
  | Raises e => (false, [(ERROR, MsgPocFailed e)])
  end.

(** What the five handlers that go to the blockchain return in one call.
    Each of them wraps its whole body in [try] / [except Exception] and
    returns [False] from the handler, so each returns a [bool]. *)
Record ChainHandlers := {
  _handle_token_distribution : Task -> bool;
  _handle_commission_calculation : Task -> bool;
  _handle_liquidity_management : Task -> bool;
  _handle_payment_processing : Task -> bool;
  _handle_kyc_verification : Task -> bool
}.

Definition _execute_by_type (h : ChainHandlers) (task : Task)
  : bool * list (LogLevel * HandlerMessage) :=
  if String.eqb (task_type task) "TOKEN_DISTRIBUTION" then
    (_handle_token_distribution h task, [])
  else if String.eqb (task_type task) "COMMISSION_CALCULATION" then
    (_handle_commission_calculation h task, [])
  else if String.eqb (task_type task) "LIQUIDITY_MANAGEMENT" then
    (_handle_liquidity_management h task, [])
  else if String.eqb (task_type task) "PAYMENT_PROCESSING" then
    (_handle_payment_processing h task, [])
  else if String.eqb (task_type task) "KYC_VERIFICATION" then
    (_handle_kyc_verification h task, [])
  else if String.eqb (task_type task) "POC_VERIFICATION" then
    _handle_poc_verification task
  else
    (false, [(WARNING, MsgUnknownTaskType (task_type task))]).

Definition known_task_types : list string :=
  ["TOKEN_DISTRIBUTION"; "COMMISSION_CALCULATION"; "LIQUIDITY_MANAGEMENT";
   "PAYMENT_PROCESSING"; "KYC_VERIFICATION"; "POC_VERIFICATION"].

(** The executor of a supervised run of [task]: at every attempt
    [execute_task] first asks for the contract handle, which [contract
    attempt] returns or raises, and then calls [_execute_by_type], where
    [chain attempt] is what the chain handlers do at that attempt;
    [clock attempt] is the time read after it.  The supervisor assigns the
    task's status only, so its type and payload are those of [task]
    throughout. *)
Definition executor (contract : Z -> Outcome unit) (chain : Z -> ChainHandlers)
    (clock : Z -> datetime) (task : Task) (attempt : Z)
  : Outcome bool * datetime :=
  (match contract attempt with
   | Returns _ => Returns (_execute_by_type (chain attempt) task).1
   | Raises e => Raises e
   end,
   clock attempt).

(** ** Commissions *)

(** [int(x)] of a float: truncation toward zero. *)
Definition py_int (x : Q) : Z := Z.quot (Qnum x) (Z.pos (Qden x)).

Definition base_rates : list (Z * Q) :=
  [(1, 1 # 2); (2, 1 # 4); (3, 1 # 8); (4, 1 # 16)].

(** [base_rates.get(level, 0)]. *)
Fixpoint rates_get (rates : list (Z * Q)) (level : Z) (default : Q) : Q :=
  match rates with
  | [] => default
  | (l, rate) :: rates => if l =? level then rate else rates_get rates level default
  end.

Definition _get_broker_performance_multiplier (broker : string) : Q := 1.

Definition _calculate_optimal_commission (broker : string)
    (sale_amount level : Z) : Z :=
  let broker_multiplier := _get_broker_performance_multiplier broker in
  let base_commission := (inject_Z sale_amount * rates_get base_rates level 0)%Q in
  let optimized_commission := py_int (base_commission * broker_multiplier) in
  optimized_commission.

(** ** What a pass of the scheduler does *)

(** The agent [_process_pending_tasks] gives the task [t] to when it comes
    to it at [current_time] in the world [w], if any. *)
Definition selected_for (w : World) (current_time : datetime) (t : Task)
  : option (ref * AIAgent) :=
  if bool_decide (status t = pending) && (execution_time t <=? current_time)
  then
    match _select_optimal_agent w t with
    | Returns (Some agent) =>
        match agent_objects w !! agent with
        | Some a => Some (agent, a)
        | None => None
        end
    | _ => None
    end
  else None.

(** The two assignments that dispatch a task to the agent [a]. *)
Definition assign (a : AIAgent) (t : Task) : Task :=
  set_status executing (set_assigned_agent (Some (agent_id (config a))) t).

Definition dispatch_of (w : World) (current_time : datetime) (t : Task) : Task :=
  match selected_for w current_time t with
  | Some (_, a) => assign a t
  | None => t
  end.

(** The coroutine created for the task [task] given to [agent]. *)
Definition supervisor_of (agent task : ref) (a : AIAgent) : Supervisor :=
  {| sup_agent := agent; sup_task := task;
     sup_max_retries := retry_attempts (config a);
     sup_attempts := range (retry_attempts (config a) + 1) |}.

(** [c] is a coroutine a pass at [current_time] over the world [w0] creates. *)
Definition spawned (w0 : World) (current_time : datetime) (c : Supervisor)
  : Prop :=
  exists t a,
    task_objects w0 !! sup_task c = Some t
    /\ selected_for w0 current_time t = Some (sup_agent c, a)
    /\ c = supervisor_of (sup_agent c) (sup_task c) a.

(** Where a pass over [w0] at [current_time] stands in [w]. *)
Definition pass_invariant (w0 : World) (current_time : datetime) (w : World)
  : Prop :=
  (agent_objects w = agent_objects w0 /\ agents w = agents w0
   /\ tasks w = tasks w0 /\ workflows w = workflows w0
   /\ is_running w = is_running w0 /\ trace w = trace w0)
  /\ (forall r,
        task_objects w !! r = task_objects w0 !! r
        \/ exists t, task_objects w0 !! r = Some t
                     /\ task_objects w !! r
                        = Some (dispatch_of w0 current_time t))
  /\ (exists new,
        coroutines w = coroutines w0 ++ new
        /\ Forall (spawned w0 current_time) new
        /\ NoDup (sup_task <$> new)
        /\ Forall (fun c => status_of w (sup_task c) = Some executing) new).

(** The attributes of a task nothing assigns after its construction. *)
Definition same_request (t t' : Task) : Prop :=
  task_id t' = task_id t /\ task_type t' = task_type t
  /\ target_contract t' = target_contract t
  /\ execution_time t' = execution_time t /\ data t' = data t
  /\ task_priority t' = task_priority t /\ is_recurring t' = is_recurring t
  /\ recurring_interval t' = recurring_interval t
  /\ retry_count t' = retry_count t.

(** An agent [_monitor_agents] has nothing to say about at [now]. *)
Definition healthy (now : datetime) (a : AIAgent) : Prop :=
  now - last_execution a <= one_hour
  /\ ((80 <= success_rate a)%Q \/ executed_tasks a <= 10).

(** Every coroutine holds a task that is past [pending] and carries the
    identifier of the coroutine's agent, whose retry ceiling the coroutine
    has; no two coroutines hold the same task. *)
Definition dispatch_record (w : World) : Prop :=
  (forall i c, coroutines w !! i = Some c ->
     exists t a,
       task_objects w !! sup_task c = Some t /\ status t <> pending
       /\ agent_objects w !! sup_agent c = Some a
       /\ assigned_agent t = Some (agent_id (config a))
       /\ sup_max_retries c = retry_attempts (config a))
  /\ NoDup (sup_task <$> coroutines w).

Definition is_cycle (a : Action) : Prop := exists now, a = Cycle now.

(** An agent as the constructor and [execute_task] leave it. *)
Definition sound_agent (a : AIAgent) : Prop :=
  is_active a = true /\ 0 <= executed_tasks a
  /\ in_percent_range (success_rate a).

(** No coroutine with attempts left holds the agent [agent]. *)
Definition idle (w : World) (agent : ref) : Prop :=
  forall c, c ∈ coroutines w -> live c -> sup_agent c <> agent.

(** What [_monitor_agents] logs about one agent at [now]. *)
Definition warnings (now : datetime) (name : string) (a : AIAgent)
  : list Event :=
  (if one_hour <? now - last_execution a
   then [Log WARNING (MsgInactive name (now - last_execution a))] else [])
  ++ (if Qlt_bool (success_rate a) 80 && (10 <? executed_tasks a)
      then [Log WARNING (MsgLowSuccessRate name (success_rate a))] else []).

(** What has happened to a task object [t] that is now [t']: the request is
    the same, and once past [pending] it keeps the agent it was given. *)
Definition task_history (t t' : Task) : Prop :=
  same_request t t'
  /\ (status t <> pending ->
      status t' <> pending /\ assigned_agent t' = assigned_agent t).

(** What has happened to an agent object [a] that is now [a']. *)
Definition agent_history (a a' : AIAgent) : Prop :=
  config a' = config a /\ is_active a' = is_active a
  /\ executed_tasks a <= executed_tasks a'.

(** * Properties *)

(** ** The reliability statistic *)

Lemma inject_Z_pred (n : Z) : (inject_Z (n - 1) == inject_Z n - 1)%Q.
Proof.
  unfold Z.sub, Qminus. rewrite inject_Z_plus. reflexivity.
Qed.

Lemma update_success_rate_counter (self : AIAgent) (success : bool) :
  executed_tasks (_update_success_rate self success) = executed_tasks self.
Proof.
  unfold _update_success_rate. destruct (executed_tasks self =? 0); reflexivity.
Qed.

Lemma update_success_rate_range (self : AIAgent) (success : bool) :
  0 <= executed_tasks self ->
  in_percent_range (success_rate self) ->
  in_percent_range (success_rate (_update_success_rate self success)).
Proof.
  intros Hn [Hlo Hhi]. unfold _update_success_rate.
  destruct (Z.eqb_spec (executed_tasks self) 0) as [_ | Hne]; simpl.
  - destruct success; split; lra.
  - set (n := executed_tasks self) in *.
    assert (Hpos : (0 < inject_Z n)%Q).
    { change 0%Q with (inject_Z 0). rewrite <- Zlt_Qlt. lia. }
    assert (Hpred : (0 <= inject_Z (n - 1))%Q).
    { change 0%Q with (inject_Z 0). rewrite <- Zle_Qle. lia. }
    pose proof (inject_Z_pred n) as Heq.
    assert (Hmul : (success_rate self * inject_Z (n - 1)
                    <= 100 * inject_Z (n - 1))%Q).
    { apply Qmult_le_compat_r; assumption. }
    assert (Hmul0 : (0 <= success_rate self * inject_Z (n - 1))%Q).
    { apply Qmult_le_0_compat; assumption. }
    split.
    + apply Qle_shift_div_l; [assumption |]. destruct success; lra.
    + apply Qle_shift_div_r; [assumption |]. destruct success; lra.
Qed.

Lemma execute_task_counter (self : AIAgent) (task : Task)
    (exec : Outcome bool) (now : datetime) :
  executed_tasks (execute_task self task exec now).1.1.1
  = executed_tasks self + (if is_success exec then 1 else 0).
Proof.
  destruct exec as [[] | e]; simpl;
    rewrite update_success_rate_counter; simpl; lia.
Qed.

Lemma execute_task_range (self : AIAgent) (task : Task)
    (exec : Outcome bool) (now : datetime) :
  0 <= executed_tasks self ->
  in_percent_range (success_rate self) ->
  in_percent_range (success_rate (execute_task self task exec now).1.1.1).
Proof.
  intros Hn Hr.
  destruct exec as [[] | e]; simpl;
    apply update_success_rate_range; simpl; (lia || assumption).
Qed.

Lemma record_outcomes_counter (self : AIAgent) (task : Task)
    (calls : list (Outcome bool * datetime)) :
  executed_tasks (record_outcomes self task calls)
  = executed_tasks self + successes calls.
Proof.
  revert self. induction calls as [| [exec now] calls IH]; intros self.
  - unfold successes. simpl. lia.
  - simpl. rewrite IH, execute_task_counter. unfold successes.
    rewrite filter_cons. simpl. destruct (is_success exec).
    + rewrite decide_True by reflexivity. simpl length. lia.
    + rewrite decide_False by discriminate. lia.
Qed.

Lemma record_outcomes_range (self : AIAgent) (task : Task)
    (calls : list (Outcome bool * datetime)) :
  0 <= executed_tasks self ->
  in_percent_range (success_rate self) ->
  in_percent_range (success_rate (record_outcomes self task calls)).
Proof.
  revert self. induction calls as [| [exec now] calls IH]; intros self Hn Hr.
  - exact Hr.
  - simpl. apply IH.
    + rewrite execute_task_counter. destruct (is_success exec); lia.
    + apply execute_task_range; assumption.
Qed.

(** C8: the success rate lies in [0, 100] at all times.  A fresh agent's rate
    is in the interval; [_update_success_rate] maps a rate in the interval to
    a rate in the interval, whatever the outcome and whatever the counter
    (a count, so not negative); hence it is in the interval after any sequence
    of executions. *)
Theorem success_rate_in_range :
  (forall cfg now, in_percent_range (success_rate (AIAgent__init__ cfg now)))
  /\ (forall self success,
        0 <= executed_tasks self ->
        in_percent_range (success_rate self) ->
        in_percent_range (success_rate (_update_success_rate self success)))
  /\ (forall cfg now task calls,
        in_percent_range
          (success_rate (record_outcomes (AIAgent__init__ cfg now) task calls))).
Proof.
  assert (Hinit : forall cfg now,
             in_percent_range (success_rate (AIAgent__init__ cfg now))).
  { intros cfg now. simpl. split; lra. }
  split; [exact Hinit |]. split.
  - intros self success. apply update_success_rate_range.
  - intros cfg now task calls. apply record_outcomes_range.
    + simpl. lia.
    + apply Hinit.
Qed.

Lemma success_rate_in_range_witness :
  in_percent_range
    (success_rate
       (_update_success_rate
          (set_executed_tasks 3 (set_success_rate 70 (AIAgent__init__ token_agent_config 0)))
          false)).
Proof.
  apply (proj1 (proj2 success_rate_in_range)).
  - simpl. lia.
  - simpl. split; lra.
Defined.

(** C10: [executed_tasks] counts the successful attempts only.  One
    [execute_task] call adds 1 to it when the executor returned [True] and
    leaves it alone when the executor returned [False] or raised; after any
    sequence of calls on a fresh agent it is the number of successes. *)
Theorem executed_tasks_counts_successes :
  (forall self task exec now,
     executed_tasks (execute_task self task exec now).1.1.1
     = match exec with
       | Returns true => executed_tasks self + 1
       | Returns false | Raises _ => executed_tasks self
       end)
  /\ (forall cfg now task calls,
        executed_tasks (record_outcomes (AIAgent__init__ cfg now) task calls)
        = successes calls).
Proof.
  split.
  - intros self task exec now. rewrite execute_task_counter.
    destruct exec as [[] | e]; simpl; lia.
  - intros cfg now task calls. rewrite record_outcomes_counter. simpl. lia.
Qed.

(** C1: the success rate is not the mean of the recorded outcomes.  The
    divisor of the update is [executed_tasks], which only successes advance.
    A fresh agent that fails and then succeeds has recorded two outcomes, one
    of them a success, and ends at 100, not at 50; the same two outcomes in
    the other order end at 0. *)
Theorem success_rate_is_not_the_mean :
  let agent := AIAgent__init__ token_agent_config 0 in
  let task := token_task 0 in
  let calls := [(Returns false, 1); (Returns true, 2)] in
  let swapped := [(Returns true, 1); (Returns false, 2)] in
  let mean := (100 * inject_Z (successes calls)
               / inject_Z (Z.of_nat (length calls)))%Q in
  (mean == 50)%Q
  /\ (success_rate (record_outcomes agent task calls) == 100)%Q
  /\ ~ (success_rate (record_outcomes agent task calls) == mean)%Q
  /\ (success_rate (record_outcomes agent task swapped) == 0)%Q.
Proof.
  cbv zeta. split; [| split; [| split]].
  - vm_compute. reflexivity.
  - vm_compute. reflexivity.
  - intros H. vm_compute in H. discriminate H.
  - vm_compute. reflexivity.
Qed.

(** ** The retry supervisor *)

Lemma timeline_app (evs evs' : list Event) :
  timeline (evs ++ evs') = timeline evs ++ timeline evs'.
Proof. apply omap_app. Qed.

Lemma execute_task_returns (self : AIAgent) (task : Task)
    (exec : Outcome bool) (now : datetime) :
  (execute_task self task exec now).2 = Returns (is_success exec).
Proof. destruct exec as [[] | e]; reflexivity. Qed.

Lemma attempt_body_success (max_retries attempt : Z) (agent : AIAgent)
    (task : Task) (exec : Outcome bool) (now : datetime) :
  is_success exec = true ->
  exists agent' task' evs,
    attempt_body max_retries attempt agent task exec now
    = (agent', task', evs, Break)
    /\ status task' = completed /\ timeline evs = [Attempt].
Proof.
  intros Hs. destruct exec as [[] | e]; try discriminate Hs.
  unfold attempt_body. simpl. eauto 8.
Qed.

Lemma attempt_body_failure (max_retries attempt : Z) (agent : AIAgent)
    (task : Task) (exec : Outcome bool) (now : datetime) :
  is_success exec = false ->
  exists agent' task' evs,
    attempt_body max_retries attempt agent task exec now
    = (agent', task', evs, Continue)
    /\ status task' = failed
    /\ timeline evs = failed_attempt max_retries attempt.
Proof.
  intros Hs. unfold attempt_body, failed_attempt.
  destruct exec as [[] | e]; try discriminate Hs; simpl;
    destruct (attempt <? max_retries); simpl; eauto 8.
Qed.

(** A run over attempts that all fail. *)
Lemma run_attempts_all_fail (max_retries : Z)
    (env : Z -> Outcome bool * datetime) (attempts : list Z)
    (agent : AIAgent) (task : Task) :
  Forall (fails env) attempts ->
  timeline (run_attempts max_retries env attempts agent task).2
  = concat (failed_attempt max_retries <$> attempts)
  /\ (attempts <> [] ->
      status (run_attempts max_retries env attempts agent task).1.2 = failed).
Proof.
  revert agent task.
  induction attempts as [| attempt attempts IH]; intros agent task Hall.
  - split; [reflexivity | congruence].
  - inversion Hall as [| ? ? Hfail Hrest]; subst.
    destruct (attempt_body_failure max_retries attempt agent task
                (env attempt).1 (env attempt).2 Hfail)
      as (agent' & task' & evs & Hbody & Hstatus & Hbeats).
    specialize (IH agent' task' Hrest). destruct IH as [IHt IHs].
    simpl. rewrite Hbody.
    destruct (run_attempts max_retries env attempts agent' task')
      as [[agent'' task''] evs'] eqn:Hrun.
    simpl in *. split.
    + rewrite timeline_app, Hbeats, IHt. reflexivity.
    + intros _. destruct attempts as [| next rest].
      * simpl in Hrun. injection Hrun as <- <- <-. exact Hstatus.
      * apply IHs. discriminate.
Qed.

(** A run whose first success comes after a prefix of failures. *)
Lemma run_attempts_first_success (max_retries : Z)
    (env : Z -> Outcome bool * datetime) (before : list Z) (attempt : Z)
    (after : list Z) (agent : AIAgent) (task : Task) :
  Forall (fails env) before ->
  succeeds env attempt ->
  timeline (run_attempts max_retries env (before ++ attempt :: after) agent task).2
  = concat (failed_attempt max_retries <$> before) ++ [Attempt]
  /\ status (run_attempts max_retries env (before ++ attempt :: after) agent task).1.2
     = completed.
Proof.
  revert agent task.
  induction before as [| first before IH]; intros agent task Hall Hsucc.
  - destruct (attempt_body_success max_retries attempt agent task
                (env attempt).1 (env attempt).2 Hsucc)
      as (agent' & task' & evs & Hbody & Hstatus & Hbeats).
    simpl. rewrite Hbody. simpl. auto.
  - inversion Hall as [| ? ? Hfail Hrest]; subst.
    destruct (attempt_body_failure max_retries first agent task
                (env first).1 (env first).2 Hfail)
      as (agent' & task' & evs & Hbody & Hstatus & Hbeats).
    specialize (IH agent' task' Hrest Hsucc). destruct IH as [IHt IHs].
    simpl. rewrite Hbody.
    destruct (run_attempts max_retries env (before ++ attempt :: after) agent' task')
      as [[agent'' task''] evs'] eqn:Hrun.
    simpl in *. split.
    + rewrite timeline_app, Hbeats, IHt. rewrite <- app_assoc. reflexivity.
    + exact IHs.
Qed.

Lemma range_snoc (n : Z) : 0 <= n -> range (n + 1) = range n ++ [n].
Proof.
  intros Hn. unfold range. rewrite seqZ_app by lia.
  rewrite (seqZ_cons _ 1) by lia. rewrite (seqZ_nil _ (Z.pred 1)) by lia.
  rewrite Z.add_0_l. reflexivity.
Qed.

Lemma range_split (n k : Z) :
  0 <= k < n -> range n = range k ++ k :: seqZ (k + 1) (n - k - 1).
Proof.
  intros Hk. unfold range.
  replace n with (k + (n - k)) at 1 by lia.
  rewrite seqZ_app by lia. rewrite (seqZ_cons _ (n - k)) by lia.
  repeat f_equal; lia.
Qed.

Lemma failed_attempt_retried (max_retries : Z) (attempts : list Z) :
  Forall (fun attempt => attempt < max_retries) attempts ->
  failed_attempt max_retries <$> attempts = failed_retried <$> attempts.
Proof.
  induction 1 as [| attempt attempts Hlt _ IH]; [reflexivity |].
  rewrite !fmap_cons, IH. f_equal.
  unfold failed_attempt, failed_retried.
  destruct (Z.ltb_spec attempt max_retries); [reflexivity | lia].
Qed.

Lemma range_Forall (P : Z -> Prop) (n : Z) :
  (forall i, 0 <= i < n -> P i) -> Forall P (range n).
Proof.
  intros H. apply Forall_forall. intros i Hi.
  apply elem_of_seqZ in Hi. apply H. lia.
Qed.

Lemma supervised_all_fail (agent : AIAgent) (task : Task)
    (env : Z -> Outcome bool * datetime) (r : Z) :
  retry_attempts (config agent) = r -> 0 <= r ->
  (forall i, 0 <= i <= r -> fails env i) ->
  timeline (_execute_task_safely agent task env).2
  = concat (failed_retried <$> range r) ++ [Attempt]
  /\ status (_execute_task_safely agent task env).1.2 = failed.
Proof.
  intros Hr Hpos Hfail. unfold _execute_task_safely. rewrite Hr.
  destruct (run_attempts_all_fail r env (range (r + 1)) agent task)
    as [Ht Hs].
  { apply range_Forall. intros i Hi. apply Hfail. lia. }
  split.
  - rewrite Ht, range_snoc, fmap_app, concat_app by lia.
    rewrite failed_attempt_retried by (apply range_Forall; intros; lia).
    simpl. unfold failed_attempt. rewrite Z.ltb_irrefl. reflexivity.
  - apply Hs. rewrite range_snoc by lia. intros Hnil.
    apply app_eq_nil in Hnil. destruct Hnil as [_ Hnil]. discriminate Hnil.
Qed.

Lemma supervised_first_success (agent : AIAgent) (task : Task)
    (env : Z -> Outcome bool * datetime) (r k : Z) :
  retry_attempts (config agent) = r -> 1 <= k <= r + 1 ->
  (forall i, 0 <= i < k - 1 -> fails env i) ->
  succeeds env (k - 1) ->
  timeline (_execute_task_safely agent task env).2
  = concat (failed_retried <$> range (k - 1)) ++ [Attempt]
  /\ status (_execute_task_safely agent task env).1.2 = completed.
Proof.
  intros Hr Hk Hfail Hsucc. unfold _execute_task_safely. rewrite Hr.
  rewrite (range_split (r + 1) (k - 1)) by lia.
  destruct (run_attempts_first_success r env (range (k - 1)) (k - 1)
              (seqZ (k - 1 + 1) (r + 1 - (k - 1) - 1)) agent task)
    as [Ht Hs].
  { apply range_Forall. exact Hfail. }
  { exact Hsucc. }
  split; [| exact Hs].
  rewrite Ht. rewrite failed_attempt_retried; [reflexivity |].
  apply range_Forall. intros; lia.
Qed.

Lemma attempts_of_retried (evs : list Event) (attempts : list Z) :
  timeline evs = concat (failed_retried <$> attempts) ++ [Attempt] ->
  attempts_made evs = Z.of_nat (length attempts) + 1.
Proof.
  intros Ht. unfold attempts_made. rewrite Ht. clear Ht.
  induction attempts as [| attempt attempts IH].
  - reflexivity.
  - rewrite fmap_cons, concat_cons. unfold failed_retried at 1.
    rewrite <- app_assoc. cbn [app].
    rewrite filter_cons_True by reflexivity.
    rewrite filter_cons_False by discriminate.
    cbn [length]. lia.
Qed.

Lemma backoff_of_retried (evs : list Event) (attempts : list Z) :
  timeline evs = concat (failed_retried <$> attempts) ++ [Attempt] ->
  total_backoff evs = foldr Z.add 0 ((fun attempt => 2 ^ attempt) <$> attempts).
Proof.
  intros Ht. unfold total_backoff. rewrite Ht. clear Ht.
  induction attempts as [| attempt attempts IH].
  - reflexivity.
  - rewrite fmap_cons, concat_cons. unfold failed_retried at 1.
    rewrite <- app_assoc. cbn [app]. rewrite !fmap_cons. cbn [foldr delay_of].
    rewrite IH. lia.
Qed.

Lemma length_range (n : Z) : 0 <= n -> Z.of_nat (length (range n)) = n.
Proof. intros Hn. unfold range. rewrite length_seqZ. lia. Qed.

Lemma foldr_add_snoc (l : list Z) (x : Z) :
  foldr Z.add 0 (l ++ [x]) = foldr Z.add 0 l + x.
Proof. induction l as [| y l IH]; simpl; lia. Qed.

(** The closed form of the sum of the delays. *)
Lemma geometric_sum_closed (r : Z) : 0 <= r -> geometric_sum r = 2 ^ r - 1.
Proof.
  revert r. apply natlike_ind.
  - reflexivity.
  - intros r Hr IH. unfold geometric_sum in *.
    replace (Z.succ r) with (r + 1) by lia.
    rewrite range_snoc, fmap_app by lia.
    change ((fun attempt => 2 ^ attempt) <$> [r]) with [2 ^ r].
    rewrite foldr_add_snoc, IH, Z.pow_add_r by lia. lia.
Qed.



(** C7: a failed attempt numbered [attempt] (from 0) with attempts remaining
    is followed by a sleep of [2 ^ attempt]; the final attempt and a
    successful attempt are followed by none.  So a run of [r + 1] failing
    attempts sleeps [2^0 + ... + 2^(r-1)] in all. *)
Theorem backoff_is_exponential (agent : AIAgent) (task : Task)
    (env : Z -> Outcome bool * datetime) (r : Z) :
  retry_attempts (config agent) = r -> 0 <= r ->
  let evs := (_execute_task_safely agent task env).2 in
  ((forall i, 0 <= i <= r -> fails env i) ->
   timeline evs = concat (failed_retried <$> range r) ++ [Attempt]
   /\ total_backoff evs = geometric_sum r)
  /\ (forall k, 1 <= k <= r + 1 ->
        (forall i, 0 <= i < k - 1 -> fails env i) ->
        succeeds env (k - 1) ->
        timeline evs = concat (failed_retried <$> range (k - 1)) ++ [Attempt]).
Proof.
  intros Hr Hpos evs. subst evs. split.
  - intros Hfail.
    destruct (supervised_all_fail agent task env r Hr Hpos Hfail) as [Ht _].
    split; [exact Ht |]. apply backoff_of_retried. exact Ht.
  - intros k Hk Hfail Hsucc.
    apply (supervised_first_success agent task env r k Hr Hk Hfail Hsucc).
Qed.

Lemma backoff_is_exponential_witness :
  let evs :=
    (_execute_task_safely (AIAgent__init__ token_agent_config 0) (token_task 0)
       (fun attempt => (Raises "timeout", attempt))).2 in
  timeline evs
  = [Attempt; Delay 1; Attempt; Delay 2; Attempt; Delay 4; Attempt]
  /\ total_backoff evs = 7.
Proof.
  refine (proj1 (backoff_is_exponential
                   (AIAgent__init__ token_agent_config 0) (token_task 0)
                   (fun attempt => (Raises "timeout", attempt)) 3
                   eq_refl _) _).
  - lia.
  - intros i Hi. reflexivity.
Defined.

(** ** Agent selection *)

Lemma Qlt_bool_iff (x y : Q) : Qlt_bool x y = true <-> (x < y)%Q.
Proof.
  unfold Qlt_bool. rewrite negb_true_iff. split.
  - intros H. apply Qnot_le_lt. intros Hle.
    apply Qle_bool_iff in Hle. congruence.
  - intros H. destruct (Qle_bool y x) eqn:E; [| reflexivity].
    apply Qle_bool_iff in E. lra.
Qed.

Lemma key_gt_true (k1 k2 : Z * Q) : key_gt k1 k2 = true -> key_lt k2 k1.
Proof.
  unfold key_gt, key_lt. destruct (Z.eqb_spec k1.1 k2.1) as [Heq | Hne].
  - intros H. apply Qlt_bool_iff in H. right. split; [congruence | exact H].
  - intros H. apply Z.ltb_lt in H. left. exact H.
Qed.

Lemma key_gt_false (k1 k2 : Z * Q) : key_gt k1 k2 = false -> key_le k1 k2.
Proof.
  unfold key_gt, key_le. destruct (Z.eqb_spec k1.1 k2.1) as [Heq | Hne].
  - intros H. right. split; [exact Heq |].
    destruct (Qlt_le_dec k2.2 k1.2) as [Hlt | Hle]; [| exact Hle].
    apply Qlt_bool_iff in Hlt. congruence.
  - intros H. apply Z.ltb_ge in H. left. lia.
Qed.

Lemma key_lt_le (k1 k2 : Z * Q) : key_lt k1 k2 -> key_le k1 k2.
Proof.
  unfold key_lt, key_le. intros [H | [H1 H2]]; [left; exact H |].
  right. split; [exact H1 | lra].
Qed.

Lemma key_le_lt_trans (k1 k2 k3 : Z * Q) :
  key_le k1 k2 -> key_lt k2 k3 -> key_lt k1 k3.
Proof.
  unfold key_lt, key_le. intros [H | [H1 H2]] [H' | [H1' H2']].
  - left. lia.
  - left. lia.
  - left. lia.
  - right. split; [lia | lra].
Qed.

(** [max_from] returns the first item, among the current maximum and the
    items still to come, whose key none of them exceeds. *)
Lemma max_from_first_max {A} (key : A -> Z * Q) (items passed later : list A)
    (maxitem : A) :
  Forall (fun x => key_lt (key x) (key maxitem)) passed ->
  Forall (fun x => key_le (key x) (key maxitem)) later ->
  exists before after,
    passed ++ maxitem :: later ++ items
    = before ++ max_from key_gt key maxitem items :: after
    /\ Forall (fun x => key_lt (key x) (key (max_from key_gt key maxitem items)))
         before
    /\ Forall (fun x => key_le (key x) (key (max_from key_gt key maxitem items)))
         after.
Proof.
  revert passed later maxitem.
  induction items as [| item items IH]; intros passed later maxitem Hlt Hle.
  - exists passed, later. rewrite app_nil_r. auto.
  - simpl. destruct (key_gt (key item) (key maxitem)) eqn:Hgt.
    + apply key_gt_true in Hgt.
      destruct (IH (passed ++ maxitem :: later) [] item) as (b & a & Heq & Hb & Ha).
      * apply Forall_app. split.
        -- eapply Forall_impl; [exact Hlt |]. intros x Hx.
           eapply key_le_lt_trans; [apply key_lt_le; exact Hx | exact Hgt].
        -- constructor; [exact Hgt |].
           eapply Forall_impl; [exact Hle |]. intros x Hx.
           eapply key_le_lt_trans; [exact Hx | exact Hgt].
      * constructor.
      * exists b, a. split; [| auto]. rewrite <- Heq.
        rewrite <- app_assoc. reflexivity.
    + apply key_gt_false in Hgt.
      destruct (IH passed (later ++ [item]) maxitem) as (b & a & Heq & Hb & Ha).
      * exact Hlt.
      * apply Forall_app. split; [exact Hle |]. constructor; [exact Hgt | constructor].
      * exists b, a. split; [| auto]. rewrite <- Heq.
        rewrite <- app_assoc. reflexivity.
Qed.

Lemma eligible_iff (w : World) (task : Task) (agent : ref) :
  eligible w task agent = true <->
  exists a, agent_objects w !! agent = Some a
            /\ is_active a = true
            /\ task_type task ∈ capabilities (config a)
            /\ (success_threshold (config a) <= success_rate a)%Q.
Proof.
  unfold eligible. destruct (agent_objects w !! agent) as [a |].
  - rewrite !andb_true_iff, bool_decide_eq_true, Qle_bool_iff. split.
    + intros [[H1 H2] H3]. exists a. auto.
    + intros (a' & Ha & H1 & H2 & H3). injection Ha as <-. auto.
  - split; [discriminate |]. intros (a & Ha & _). discriminate Ha.
Qed.


(** ** The health monitor *)

Lemma emit_nil (w : World) : emit [] w = w.
Proof. destruct w. unfold emit. simpl. rewrite app_nil_r. reflexivity. Qed.

Lemma emit_emit (evs evs' : list Event) (w : World) :
  emit evs' (emit evs w) = emit (evs ++ evs') w.
Proof. unfold emit. simpl. rewrite app_assoc. reflexivity. Qed.

Lemma monitor_agent_emits (now : datetime) (name : string) (agent : ref)
    (w : World) :
  exists evs,
    monitor_agent now name agent w = (Returns tt, emit evs w)
    /\ Forall is_warning evs.
Proof.
  unfold monitor_agent, mbind, M_bind, get_world.
  destruct (agent_objects w !! agent) as [a |].
  - destruct (one_hour <? now - last_execution a);
      destruct (Qlt_bool (success_rate a) 80 && (10 <? executed_tasks a));
      simpl; unfold logger, modify, mret, M_ret; rewrite ?emit_emit.
    + eexists. split; [reflexivity |].
      repeat constructor; eexists; reflexivity.
    + eexists. split; [reflexivity |].
      repeat constructor; eexists; reflexivity.
    + eexists. split; [reflexivity |].
      repeat constructor; eexists; reflexivity.
    + exists []. rewrite emit_nil. split; [reflexivity | constructor].
  - exists []. rewrite emit_nil. split; [reflexivity | constructor].
Qed.

(** A loop whose body only logs only logs. *)
Lemma for_each_emits {A} (P : Event -> Prop) (body : A -> M unit)
    (items : list A) (w : World) :
  (forall x w, exists evs, body x w = (Returns tt, emit evs w) /\ Forall P evs) ->
  exists evs,
    for_each items body w = (Returns tt, emit evs w) /\ Forall P evs.
Proof.
  intros Hbody. revert w. induction items as [| x items IH]; intros w.
  - exists []. rewrite emit_nil. split; [reflexivity | constructor].
  - destruct (Hbody x w) as (evs & Hx & Hevs).
    destruct (IH (emit evs w)) as (evs' & Hrest & Hevs').
    exists (evs ++ evs'). split.
    + simpl. unfold mbind, M_bind. rewrite Hx, Hrest, emit_emit. reflexivity.
    + apply Forall_app. auto.
Qed.

(** C9: [_monitor_agents] returns normally and changes nothing but the log,
    to which it adds warnings only: every agent object (activity flag, success
    rate, counter, last execution), every task object, the registries and the
    dispatched coroutines are as before, and so is the agent selected for any
    task. *)
Theorem monitor_is_read_only (now : datetime) (w : World) :
  let result := _monitor_agents now w in
  result.1 = Returns tt
  /\ same_state w result.2
  /\ (exists evs, trace result.2 = trace w ++ evs /\ Forall is_warning evs)
  /\ (forall task,
        _select_optimal_agent result.2 task = _select_optimal_agent w task).
Proof.
  unfold _monitor_agents, mbind, M_bind, get_world. cbv zeta.
  destruct (for_each_emits is_warning
              (fun item => monitor_agent now item.1 item.2)
              (dict_items (agents w)) w) as (evs & Hrun & Hevs).
  { intros item w'. apply monitor_agent_emits. }
  rewrite Hrun. simpl. split; [reflexivity |]. split; [| split].
  - unfold same_state. simpl. auto 10.
  - exists evs. auto.
  - intros task. reflexivity.
Qed.

(** ** The registries *)



(** Assigning to a key that is present keeps the iteration order. *)
Lemma dict_set_keys {V} (d : dict V) (k : string) (v : V) :
  is_Some (dict_get d k) -> (dict_set d k v).*1 = d.*1.
Proof.
  induction d as [| [k' v'] d IH]; intros Hin.
  - destruct Hin as [x Hx]. discriminate Hx.
  - cbn [dict_set dict_get] in *.
    destruct (String.eqb_spec k' k); [reflexivity |].
    rewrite !fmap_cons. f_equal. apply IH. exact Hin.
Qed.



(** ** The scheduler's pass over the tasks *)

Ltac unfold_monad :=
  unfold mbind, M_bind, mret, M_ret, get_world, modify, lift, logger,
    asyncio_sleep, create_task, try_except in *.

Lemma select_never_raises (w : World) (task : Task) (e : string) :
  _select_optimal_agent w task <> Raises e.
Proof.
  unfold _select_optimal_agent.
  destruct (eligible_agents w task); simpl; discriminate.
Qed.

Lemma select_none (w : World) (task : Task) :
  eligible_agents w task = [] <-> _select_optimal_agent w task = Returns None.
Proof.
  unfold _select_optimal_agent.
  destruct (eligible_agents w task); simpl; split; congruence.
Qed.

Lemma eligible_agents_same (w w' : World) (task : Task) :
  agent_objects w' = agent_objects w -> agents w' = agents w ->
  eligible_agents w' task = eligible_agents w task.
Proof.
  intros Ho Ha. unfold eligible_agents, eligible. rewrite Ho, Ha. reflexivity.
Qed.

(** One iteration of the scan leaves the world alone or dispatches the
    task. *)
Lemma dispatch_if_due_cases (current_time : datetime) (task : ref) (w : World) :
  dispatch_if_due current_time task w = (Returns tt, w)
  \/ exists t agent a,
       task_objects w !! task = Some t /\ status t = pending
       /\ execution_time t <= current_time
       /\ _select_optimal_agent w t = Returns (Some agent)
       /\ agent_objects w !! agent = Some a
       /\ dispatch_if_due current_time task w
          = (Returns tt,
             with_coroutines
               (fun cs =>
                  cs ++ [{| sup_agent := agent; sup_task := task;
                            sup_max_retries := retry_attempts (config a);
                            sup_attempts := range (retry_attempts (config a) + 1) |}])
               (with_task_objects
                  (fun objects =>
                     <[task := set_status executing
                                 (set_assigned_agent (Some (agent_id (config a))) t)]>
                       objects) w)).
Proof.
  unfold dispatch_if_due. unfold_monad.
  destruct (task_objects w !! task) as [t |] eqn:Ht; [| left; reflexivity].
  destruct (bool_decide (status t = pending)) eqn:Hp; simpl; [| left; reflexivity].
  destruct (execution_time t <=? current_time) eqn:Hdue; simpl;
    [| left; reflexivity].
  destruct (_select_optimal_agent w t) as [[agent |] | e] eqn:Hsel.
  - destruct (agent_objects w !! agent) as [a |] eqn:Ha; [| left; reflexivity].
    right. exists t, agent, a.
    apply bool_decide_eq_true in Hp. apply Z.leb_le in Hdue. auto 10.
  - left. reflexivity.
  - exfalso. exact (select_never_raises w t e Hsel).
Qed.

(** A property every iteration keeps holds after the loop. *)
Lemma for_each_preserves {A} (P : World -> Prop) (body : A -> M unit)
    (items : list A) (w : World) :
  (forall x w, P w -> (body x w).1 = Returns tt /\ P (body x w).2) ->
  P w ->
  (for_each items body w).1 = Returns tt /\ P (for_each items body w).2.
Proof.
  intros Hbody. revert w. induction items as [| x items IH]; intros w Hw.
  - simpl. auto.
  - simpl. unfold mbind, M_bind.
    destruct (Hbody x w Hw) as [Hret HP].
    destruct (body x w) as [[[] | e] w']; simpl in *; [| discriminate].
    apply IH. exact HP.
Qed.

Lemma status_of_insert_eq (w : World) (r : ref) (t t' : Task) :
  task_objects w !! r = Some t ->
  status <$> (<[r := t']> (task_objects w)) !! r = Some (status t').
Proof.
  intros Ht. rewrite list_lookup_insert_eq; [reflexivity |].
  apply lookup_lt_Some in Ht. exact Ht.
Qed.

Lemma dispatch_if_due_keeps (w0 : World) (current_time : datetime)
    (task : ref) (w : World) :
  supervision_invariant w /\ tick_effect w0 w ->
  (dispatch_if_due current_time task w).1 = Returns tt
  /\ supervision_invariant (dispatch_if_due current_time task w).2
  /\ tick_effect w0 (dispatch_if_due current_time task w).2.
Proof.
  intros [[Hinv1 Hinv2] Htick].
  destruct (dispatch_if_due_cases current_time task w)
    as [-> | (t & agent & a & Ht & Hp & Hdue & Hsel & Ha & ->)].
  { cbn [fst snd]. split; [reflexivity |]. split; [split; assumption | assumption]. }
  destruct Htick as (Hao & Hag & Htk & Hwf & Hrun & Hobj & new & Hco & Hnew).
  cbn [fst snd]. split; [reflexivity |].
  assert (Hpend : status_of w task = Some pending).
  { unfold status_of. rewrite Ht. simpl. congruence. }
  assert (Hother : forall c i, coroutines w !! i = Some c -> live c ->
                     sup_task c <> task).
  { intros c i Hc Hl Heq. destruct (Hinv1 i c Hc Hl) as [H | H];
      rewrite Heq in H; congruence. }
  split; [split |].
  - intros i c Hc Hl. unfold status_of. cbn [task_objects with_coroutines with_task_objects coroutines] in *.
    apply lookup_snoc_Some in Hc. destruct Hc as [[_ Hc] | [_ <-]].
    + rewrite list_lookup_insert_ne by (intros E; exact (Hother c i Hc Hl (eq_sym E))).
      exact (Hinv1 i c Hc Hl).
    + cbn [sup_task]. left. rewrite (status_of_insert_eq w task t _ Ht). reflexivity.
  - intros i j c c' Hc Hc' Hl Hl' Heq.
    cbn [task_objects with_coroutines with_task_objects coroutines] in *.
    apply lookup_snoc_Some in Hc, Hc'.
    destruct Hc as [[_ Hc] | [-> <-]], Hc' as [[_ Hc'] | [-> <-]].
    + exact (Hinv2 i j c c' Hc Hc' Hl Hl' Heq).
    + exfalso. exact (Hother c i Hc Hl Heq).
    + exfalso. exact (Hother c' j Hc' Hl' (eq_sym Heq)).
    + reflexivity.
  - unfold tick_effect. cbn [agent_objects agents tasks workflows is_running task_objects with_coroutines with_task_objects coroutines].
    repeat (split; [assumption |]). split.
    + intros r. destruct (decide (r = task)) as [-> | Hne].
      * right. destruct (Hobj task) as [Hsame | (t0 & t1 & _ & _ & _ & Ht1 & Hs1)].
        -- exists t. eexists. split; [rewrite <- Hsame; exact Ht |]. split; [exact Hp |].
           split.
           ++ rewrite <- (eligible_agents_same w0 w t) by assumption.
              intros Hnil. apply select_none in Hnil. congruence.
           ++ split; [apply list_lookup_insert_eq; eapply lookup_lt_Some; exact Ht |].
              reflexivity.
        -- congruence.
      * rewrite list_lookup_insert_ne by congruence. apply Hobj.
    + exists (new ++ [{| sup_agent := agent; sup_task := task;
                         sup_max_retries := retry_attempts (config a);
                         sup_attempts := range (retry_attempts (config a) + 1) |}]).
      rewrite Hco, app_assoc. split; [reflexivity |].
      apply Forall_app. split; [exact Hnew |]. constructor; [| constructor].
      cbn [sup_task]. destruct (Hobj task) as [Hsame | (t0 & t1 & _ & _ & _ & Ht1 & Hs1)].
      -- unfold status_of. rewrite <- Hsame, Ht. simpl. congruence.
      -- congruence.
Qed.

Lemma tick_effect_refl (w : World) : tick_effect w w.
Proof.
  unfold tick_effect. repeat (split; [reflexivity |]). split.
  - intros r. left. reflexivity.
  - exists []. rewrite app_nil_r. split; [reflexivity | constructor].
Qed.

Lemma supervision_invariant_emit (evs : list Event) (w : World) :
  supervision_invariant w -> supervision_invariant (emit evs w).
Proof. intros H. exact H. Qed.

Lemma tick_effect_emit (evs : list Event) (w0 w : World) :
  tick_effect w0 w -> tick_effect w0 (emit evs w).
Proof. intros H. exact H. Qed.

Lemma process_pending_tasks_effect (current_time : datetime) (w : World) :
  supervision_invariant w ->
  (_process_pending_tasks current_time w).1 = Returns tt
  /\ supervision_invariant (_process_pending_tasks current_time w).2
  /\ tick_effect w (_process_pending_tasks current_time w).2.
Proof.
  intros Hinv. unfold _process_pending_tasks. unfold_monad.
  apply (for_each_preserves
           (fun w' => supervision_invariant w' /\ tick_effect w w')).
  - intros item w' Hw'. apply dispatch_if_due_keeps. exact Hw'.
  - split; [exact Hinv | apply tick_effect_refl].
Qed.

Lemma monitor_agents_emits (now : datetime) (w : World) :
  exists evs,
    _monitor_agents now w = (Returns tt, emit evs w) /\ Forall is_warning evs.
Proof.
  unfold _monitor_agents. unfold_monad.
  apply (for_each_emits is_warning
           (fun item => monitor_agent now item.1 item.2)).
  intros item w'. apply monitor_agent_emits.
Qed.

(** One iteration of the orchestration loop returns normally and does to
    the world what its pass over the tasks does. *)
Lemma cycle_effect (now : datetime) (w : World) :
  supervision_invariant w ->
  (cycle now w).1 = Returns tt
  /\ supervision_invariant (cycle now w).2
  /\ tick_effect w (cycle now w).2.
Proof.
  intros Hinv. unfold cycle. unfold_monad.
  destruct (is_running w).
  - destruct (process_pending_tasks_effect now w Hinv) as (Hret & Hinv' & Htick).
    destruct (_process_pending_tasks now w) as [[[] | e] w1];
      cbn [fst snd] in *; [| discriminate].
    unfold _process_workflows. unfold_monad.
    destruct (monitor_agents_emits now w1) as (evs & -> & _).
    cbn [fst snd]. split; [reflexivity |]. split.
    + apply supervision_invariant_emit, supervision_invariant_emit. exact Hinv'.
    + apply tick_effect_emit, tick_effect_emit. exact Htick.
  - cbn [fst snd]. split; [reflexivity |]. split; [exact Hinv |].
    apply tick_effect_refl.
Qed.

(** ** Resuming a supervisor *)

(** A resumption does nothing (no such coroutine, or it has returned) or
    runs one attempt: the task ends [completed] and the coroutine returns,
    or the task ends [failed] and the coroutine goes on to its remaining
    attempts. *)
Lemma resume_cases (i : nat) (exec : Outcome bool) (now : datetime) (w : World) :
  resume i exec now w = w
  \/ exists c attempt rest a t a' t' evs rest',
       coroutines w !! i = Some c
       /\ sup_attempts c = attempt :: rest
       /\ agent_objects w !! sup_agent c = Some a
       /\ task_objects w !! sup_task c = Some t
       /\ ((status t' = completed /\ rest' = [])
           \/ (status t' = failed /\ rest' = rest))
       /\ resume i exec now w
          = emit evs
              (with_coroutines (fun cs => <[i := set_attempts rest' c]> cs)
                 (with_task_objects (fun objects => <[sup_task c := t']> objects)
                    (with_agent_objects
                       (fun objects => <[sup_agent c := a']> objects) w))).
Proof.
  unfold resume.
  destruct (coroutines w !! i) as [c |] eqn:Hc; [| left; reflexivity].
  destruct (sup_attempts c) as [| attempt rest] eqn:Hattempts;
    [left; reflexivity |].
  destruct (agent_objects w !! sup_agent c) as [a |] eqn:Ha;
    [| left; reflexivity].
  destruct (task_objects w !! sup_task c) as [t |] eqn:Ht;
    [| left; reflexivity].
  right. destruct (is_success exec) eqn:Hs.
  - destruct (attempt_body_success (sup_max_retries c) attempt a t exec now Hs)
      as (a' & t' & evs & -> & Hstatus & _).
    exists c, attempt, rest, a, t, a', t', evs, []. auto 10.
  - destruct (attempt_body_failure (sup_max_retries c) attempt a t exec now Hs)
      as (a' & t' & evs & -> & Hstatus & _).
    exists c, attempt, rest, a, t, a', t', evs, rest. auto 10.
Qed.

Lemma live_watches_unsettled (w : World) (i : nat) (c : Supervisor) (s : TaskStatus) :
  supervision_invariant w ->
  coroutines w !! i = Some c -> live c ->
  status_of w (sup_task c) = Some s -> s = executing \/ s = failed.
Proof.
  intros [Hinv _] Hc Hl Hs.
  destruct (Hinv i c Hc Hl) as [H | H]; rewrite H in Hs;
    injection Hs as <-; auto.
Qed.

Lemma resume_invariant (i : nat) (exec : Outcome bool) (now : datetime)
    (w : World) :
  supervision_invariant w -> supervision_invariant (resume i exec now w).
Proof.
  intros Hinv.
  destruct (resume_cases i exec now w)
    as [-> | (c & attempt & rest & a & t & a' & t' & evs & rest' & Hc & Hatt
              & Ha & Ht & Hend & ->)]; [exact Hinv |].
  apply supervision_invariant_emit.
  assert (Hlive : live c). { unfold live. rewrite Hatt. discriminate. }
  destruct Hinv as [Hinv1 Hinv2].
  assert (Hstill : forall j cj,
             <[i := set_attempts rest' c]> (coroutines w) !! j = Some cj ->
             live cj ->
             exists cj0, coroutines w !! j = Some cj0 /\ live cj0
                         /\ sup_task cj0 = sup_task cj
                         /\ (j <> i -> cj0 = cj)).
  { intros j cj Hj Hl. apply list_lookup_insert_Some in Hj.
    destruct Hj as [(<- & <- & _) | [Hne Hj]].
    - exists c. split; [exact Hc |]. split; [exact Hlive |].
      split; [reflexivity | congruence].
    - exists cj. auto. }
  split.
  - intros j cj Hj Hl. unfold status_of.
    cbn [coroutines task_objects with_coroutines with_task_objects
         with_agent_objects] in *.
    destruct (Hstill j cj Hj Hl) as (cj0 & Hj0 & Hl0 & Htask & Hsame).
    destruct (decide (j = i)) as [-> | Hne].
    + rewrite list_lookup_insert_eq in Hj by (eapply lookup_lt_Some; exact Hc).
      injection Hj as <-. cbn [sup_task set_attempts].
      rewrite (status_of_insert_eq w (sup_task c) t t' Ht).
      destruct Hend as [[_ ->] | [-> _]]; [| auto].
      exfalso. apply Hl. reflexivity.
    + specialize (Hsame Hne). subst cj0.
      rewrite list_lookup_insert_ne.
      * exact (Hinv1 j cj Hj0 Hl).
      * intros Heq. apply Hne. symmetry.
        exact (Hinv2 i j c cj Hc Hj0 Hlive Hl Heq).
  - intros j k cj ck Hj Hk Hlj Hlk Heq.
    cbn [coroutines with_coroutines with_task_objects with_agent_objects] in *.
    destruct (Hstill j cj Hj Hlj) as (cj0 & Hj0 & Hlj0 & Htj & _).
    destruct (Hstill k ck Hk Hlk) as (ck0 & Hk0 & Hlk0 & Htk & _).
    apply (Hinv2 j k cj0 ck0 Hj0 Hk0 Hlj0 Hlk0). congruence.
Qed.

Lemma supervised_lookup (w : World) (r : ref) :
  supervised w r <->
  exists i c, coroutines w !! i = Some c /\ live c /\ sup_task c = r.
Proof.
  unfold supervised, live. split.
  - intros (c & Hin & Hr & Hl). apply list_elem_of_lookup in Hin.
    destruct Hin as [i Hi]. eauto.
  - intros (i & c & Hi & Hl & Hr). exists c.
    split; [eapply list_elem_of_lookup_2; exact Hi | auto].
Qed.

Lemma supervised_unsettled (w : World) (r : ref) (s : TaskStatus) :
  supervision_invariant w -> supervised w r -> status_of w r = Some s ->
  s = executing \/ s = failed.
Proof.
  intros Hinv Hsup Hs. apply supervised_lookup in Hsup.
  destruct Hsup as (i & c & Hc & Hl & <-).
  exact (live_watches_unsettled w i c s Hinv Hc Hl Hs).
Qed.

Lemma resume_unsupervised (i : nat) (exec : Outcome bool) (now : datetime)
    (w : World) (r : ref) :
  ~ supervised w r ->
  task_objects (resume i exec now w) !! r = task_objects w !! r
  /\ ~ supervised (resume i exec now w) r.
Proof.
  intros Hnot.
  destruct (resume_cases i exec now w)
    as [-> | (c & attempt & rest & a & t & a' & t' & evs & rest' & Hc & Hatt
              & Ha & Ht & Hend & ->)]; [auto |].
  assert (Hlive : live c). { unfold live. rewrite Hatt. discriminate. }
  assert (Hne : sup_task c <> r).
  { intros Heq. apply Hnot, supervised_lookup. eauto. }
  cbn [task_objects emit with_coroutines with_task_objects with_agent_objects].
  split; [apply list_lookup_insert_ne; exact Hne |].
  intros Hsup. apply supervised_lookup in Hsup.
  destruct Hsup as (j & cj & Hj & Hl & Hr).
  cbn [coroutines emit with_coroutines with_task_objects with_agent_objects] in Hj.
  apply list_lookup_insert_Some in Hj.
  destruct Hj as [(_ & <- & _) | [_ Hj]].
  - apply Hne. exact Hr.
  - apply Hnot, supervised_lookup. eauto.
Qed.

Lemma resume_transition (i : nat) (exec : Outcome bool) (now : datetime)
    (w : World) (r : ref) (s : TaskStatus) :
  supervision_invariant w -> status_of w r = Some s ->
  exists s', status_of (resume i exec now w) r = Some s'
             /\ (s' = s \/ transition s s').
Proof.
  intros Hinv Hs.
  destruct (resume_cases i exec now w)
    as [-> | (c & attempt & rest & a & t & a' & t' & evs & rest' & Hc & Hatt
              & Ha & Ht & Hend & ->)]; [eauto |].
  assert (Hlive : live c). { unfold live. rewrite Hatt. discriminate. }
  unfold status_of in *.
  cbn [task_objects emit with_coroutines with_task_objects with_agent_objects].
  destruct (decide (sup_task c = r)) as [<- | Hne].
  - rewrite (status_of_insert_eq w (sup_task c) t t' Ht).
    exists (status t'). split; [reflexivity |].
    destruct (live_watches_unsettled w i c s Hinv Hc Hlive Hs) as [-> | ->];
      destruct Hend as [[-> _] | [-> _]]; auto using transition.
  - rewrite list_lookup_insert_ne by exact Hne. eauto.
Qed.

Lemma cycle_unsupervised (now : datetime) (w : World) (r : ref) (t : Task) :
  supervision_invariant w -> ~ supervised w r ->
  task_objects w !! r = Some t -> status t <> pending ->
  task_objects (cycle now w).2 !! r = Some t
  /\ ~ supervised (cycle now w).2 r.
Proof.
  intros Hinv Hnot Ht Hs.
  destruct (cycle_effect now w Hinv)
    as (_ & _ & _ & _ & _ & _ & _ & Hobj & new & Hco & Hnew).
  split.
  - destruct (Hobj r) as [-> | (t0 & t1 & Ht0 & Hp & _)]; [exact Ht |].
    congruence.
  - intros Hsup. destruct Hsup as (c & Hin & Hr & Hl).
    rewrite Hco in Hin. apply elem_of_app in Hin. destruct Hin as [Hin | Hin].
    + apply Hnot. exists c. auto.
    + rewrite Forall_forall in Hnew. specialize (Hnew c Hin).
      unfold status_of in Hnew. rewrite Hr, Ht in Hnew. simpl in Hnew.
      congruence.
Qed.

Lemma cycle_starved (now : datetime) (w : World) (r : ref) (t : Task) :
  supervision_invariant w ->
  task_objects w !! r = Some t -> eligible_agents w t = [] ->
  task_objects (cycle now w).2 !! r = Some t.
Proof.
  intros Hinv Ht Hnone.
  destruct (cycle_effect now w Hinv) as (_ & _ & _ & _ & _ & _ & _ & Hobj & _).
  destruct (Hobj r) as [-> | (t0 & t1 & Ht0 & _ & Hsome & _)]; [exact Ht |].
  congruence.
Qed.

Lemma cycle_transition (now : datetime) (w : World) (r : ref) (s : TaskStatus) :
  supervision_invariant w -> status_of w r = Some s ->
  exists s', status_of (cycle now w).2 r = Some s'
             /\ (s' = s \/ transition s s').
Proof.
  intros Hinv Hs.
  destruct (cycle_effect now w Hinv) as (_ & _ & _ & _ & _ & _ & _ & Hobj & _).
  unfold status_of in *.
  destruct (Hobj r) as [-> | (t0 & t1 & Ht0 & Hp & _ & -> & Hs1)]; [eauto |].
  rewrite Ht0 in Hs. simpl in *. exists executing.
  split; [congruence |]. right.
  replace s with pending by congruence. constructor.
Qed.

(** ** Steps of the system *)

(** The calls from outside create objects and edit the registries; they
    leave the existing task objects and the coroutines alone. *)
Lemma external_step (a : Action) (w : World) :
  match a with
  | Cycle _ | Resume _ _ _ => True
  | _ =>
      coroutines (step a w) = coroutines w
      /\ exists created, task_objects (step a w) = task_objects w ++ created
  end.
Proof.
  destruct a as [task | cfg now | task | wid wseq | | now | i exec now |];
    try exact I; cbn [step].
  - split; [reflexivity |]. exists [task]. reflexivity.
  - split; [reflexivity |]. exists []. rewrite app_nil_r. reflexivity.
  - unfold schedule_task. unfold_monad.
    destruct (task_objects w !! task);
      (split; [reflexivity |]; exists []; rewrite app_nil_r; reflexivity).
  - split; [reflexivity |]. exists []. rewrite app_nil_r. reflexivity.
  - split; [reflexivity |]. exists []. rewrite app_nil_r. reflexivity.
  - split; [reflexivity |]. exists []. rewrite app_nil_r. reflexivity.
Qed.

Lemma supervision_invariant_external (w w' : World) (created : list Task) :
  coroutines w' = coroutines w ->
  task_objects w' = task_objects w ++ created ->
  supervision_invariant w -> supervision_invariant w'.
Proof.
  intros Hco Hobj [Hinv1 Hinv2]. unfold supervision_invariant, status_of.
  rewrite Hco, Hobj. split; [| exact Hinv2].
  intros i c Hc Hl. unfold status_of in Hinv1.
  destruct (Hinv1 i c Hc Hl) as [H | H];
    destruct (task_objects w !! sup_task c) as [t |] eqn:Ht;
    try discriminate H;
    rewrite (lookup_app_l_Some _ _ _ _ Ht); auto.
Qed.

Lemma supervised_external (w w' : World) (r : ref) :
  coroutines w' = coroutines w -> supervised w' r <-> supervised w r.
Proof. intros Hco. unfold supervised. rewrite Hco. reflexivity. Qed.

Lemma step_invariant (a : Action) (w : World) :
  supervision_invariant w -> supervision_invariant (step a w).
Proof.
  intros Hinv. pose proof (external_step a w) as Hext.
  destruct a.
  6: { apply cycle_effect. exact Hinv. }
  6: { apply resume_invariant. exact Hinv. }
  all: destruct Hext as [Hco [created Hobj]];
    exact (supervision_invariant_external _ _ _ Hco Hobj Hinv).
Qed.

Lemma run_invariant (acts : list Action) (w : World) :
  supervision_invariant w -> supervision_invariant (run acts w).
Proof.
  revert w. induction acts as [| a acts IH]; intros w Hinv; [exact Hinv |].
  simpl. apply IH, step_invariant, Hinv.
Qed.

Lemma reachable_invariant (w : World) :
  reachable w -> supervision_invariant w.
Proof.
  intros [acts ->]. apply run_invariant. split.
  - intros i c Hc. destruct i; discriminate Hc.
  - intros i j c c' Hc. destruct i; discriminate Hc.
Qed.

(** A step keeps the status of a task object or moves it along a
    [transition]. *)
Lemma step_transition (a : Action) (w : World) (r : ref) (s : TaskStatus) :
  supervision_invariant w -> status_of w r = Some s ->
  exists s', status_of (step a w) r = Some s' /\ (s' = s \/ transition s s').
Proof.
  intros Hinv Hs. pose proof (external_step a w) as Hext.
  destruct a.
  6: { apply cycle_transition; assumption. }
  6: { apply resume_transition; assumption. }
  all: destruct Hext as [_ [created Hobj]]; exists s; split; [| auto];
    unfold status_of in *; rewrite Hobj;
    destruct (task_objects w !! r) as [t |] eqn:Ht; [| discriminate Hs];
    rewrite (lookup_app_l_Some _ _ _ _ Ht); exact Hs.
Qed.

(** A task object that is not pending and has no supervisor with attempts
    left is out of every step's reach. *)
Lemma step_unsupervised (a : Action) (w : World) (r : ref) (t : Task) :
  supervision_invariant w -> ~ supervised w r ->
  task_objects w !! r = Some t -> status t <> pending ->
  task_objects (step a w) !! r = Some t /\ ~ supervised (step a w) r.
Proof.
  intros Hinv Hnot Ht Hs. pose proof (external_step a w) as Hext.
  destruct a.
  6: { apply cycle_unsupervised; assumption. }
  6: { cbn [step]. destruct (resume_unsupervised i exec now w r Hnot) as [-> Hn].
       auto. }
  all: destruct Hext as [Hco [created Hobj]]; split;
    [rewrite Hobj; apply lookup_app_l_Some; exact Ht
    | rewrite (supervised_external _ _ _ Hco); exact Hnot].
Qed.

(** A pending task object for which no agent is eligible when the scheduler
    passes is left as it is. *)
Lemma step_starved (a : Action) (w : World) (r : ref) (t : Task) :
  supervision_invariant w ->
  task_objects w !! r = Some t -> status t = pending ->
  (forall now, a = Cycle now -> eligible_agents w t = []) ->
  task_objects (step a w) !! r = Some t.
Proof.
  intros Hinv Ht Hp Hnone. pose proof (external_step a w) as Hext.
  destruct a.
  6: { apply cycle_starved; eauto. }
  6: { cbn [step]. destruct (resume_unsupervised i exec now w r) as [-> _];
         [| exact Ht].
       intros Hsup.
       destruct (supervised_unsettled w r pending Hinv Hsup); [| congruence..].
       unfold status_of. rewrite Ht. simpl. congruence. }
  all: destruct Hext as [_ [created Hobj]];
    rewrite Hobj; apply lookup_app_l_Some; exact Ht.
Qed.

(** ** The life of a task *)

Lemma run_unsupervised (acts : list Action) (w : World) (r : ref) (t : Task) :
  supervision_invariant w -> ~ supervised w r ->
  task_objects w !! r = Some t -> status t <> pending ->
  task_objects (run acts w) !! r = Some t.
Proof.
  revert w. induction acts as [| a acts IH]; intros w Hinv Hnot Ht Hs;
    [exact Ht |].
  destruct (step_unsupervised a w r t Hinv Hnot Ht Hs) as [Ht' Hnot'].
  simpl. apply IH; auto using step_invariant.
Qed.

Lemma completed_is_terminal (acts : list Action) (w : World) (r : ref) :
  supervision_invariant w -> status_of w r = Some completed ->
  status_of (run acts w) r = Some completed.
Proof.
  intros Hinv Hs. unfold status_of in *.
  destruct (task_objects w !! r) as [t |] eqn:Ht; [| discriminate Hs].
  injection Hs as Hs.
  rewrite (run_unsupervised acts w r t Hinv); simpl; try congruence.
  intros Hsup.
  destruct (supervised_unsettled w r completed Hinv Hsup); try congruence.
  unfold status_of. rewrite Ht. simpl. congruence.
Qed.

Lemma failed_stays_or_completes (acts : list Action) (w : World) (r : ref) :
  supervision_invariant w -> status_of w r = Some failed ->
  status_of (run acts w) r = Some failed
  \/ status_of (run acts w) r = Some completed.
Proof.
  revert w. induction acts as [| a acts IH]; intros w Hinv Hs; [auto |].
  destruct (step_transition a w r failed Hinv Hs) as (s' & Hs' & [-> | Htr]).
  - simpl. apply IH; auto using step_invariant.
  - inversion Htr; subst. right. simpl.
    apply completed_is_terminal; auto using step_invariant.
Qed.

(** C2, as the code has it.  Each step of the scheduler or of a retry
    supervisor keeps a task's status or moves it from [pending] to
    [executing], from [executing] to [completed] or [failed], or, by a later
    attempt of the same supervised run, from [failed] to [completed].  So
    [completed] is terminal, [failed] never goes back to [pending] or
    [executing], and [failed] is terminal once the task's supervisor has no
    attempt left. *)
Theorem status_transitions (w : World) (task : ref) :
  reachable w ->
  (forall a s, status_of w task = Some s ->
     exists s', status_of (step a w) task = Some s'
                /\ (s' = s \/ transition s s'))
  /\ (forall acts, status_of w task = Some completed ->
        status_of (run acts w) task = Some completed)
  /\ (forall acts, status_of w task = Some failed ->
        status_of (run acts w) task = Some failed
        \/ status_of (run acts w) task = Some completed)
  /\ (forall acts, status_of w task = Some failed -> ~ supervised w task ->
        status_of (run acts w) task = Some failed).
Proof.
  intros Hreach. pose proof (reachable_invariant w Hreach) as Hinv.
  split; [| split; [| split]].
  - intros a s. apply step_transition. exact Hinv.
  - intros acts. apply completed_is_terminal. exact Hinv.
  - intros acts. apply failed_stays_or_completes. exact Hinv.
  - intros acts Hs Hnot. unfold status_of in *.
    destruct (task_objects w !! task) as [t |] eqn:Ht; [| discriminate Hs].
    injection Hs as Hs.
    rewrite (run_unsupervised acts w task t Hinv Hnot Ht); simpl;
      congruence.
Qed.

Lemma status_transitions_witness :
  let w :=
    run [RegisterAgent token_agent_config 0; NewTask (token_task 0);
         ScheduleTask 0%nat; Start; Cycle 1;
         Resume 0%nat (Returns false) 2; Resume 0%nat (Returns true) 4]
      AIOrchestrator__init__ in
  status_of w 0%nat = Some completed
  /\ status_of (run [Cycle 11; Resume 0%nat (Returns false) 12] w) 0%nat
     = Some completed.
Proof.
  cbv zeta. split; [reflexivity |].
  refine (proj1 (proj2 (status_transitions _ 0%nat _)) _ _).
  - eexists. reflexivity.
  - reflexivity.
Defined.

(** A task marked [failed] by a first attempt is [completed] by the retry. *)
Lemma failed_task_completes_on_retry :
  let w :=
    run [RegisterAgent token_agent_config 0; NewTask (token_task 0);
         ScheduleTask 0%nat; Start; Cycle 1; Resume 0%nat (Returns false) 2]
      AIOrchestrator__init__ in
  status_of w 0%nat = Some failed
  /\ status_of (step (Resume 0%nat (Returns true) 4) w) 0%nat = Some completed.
Proof. cbv zeta. split; vm_compute; reflexivity. Qed.

(** ** Tasks without an eligible agent *)

Lemma run_starved (acts : list Action) (w : World) (r : ref) (t : Task) :
  supervision_invariant w ->
  task_objects w !! r = Some t -> status t = pending ->
  starved r acts w ->
  task_objects (run acts w) !! r = Some t.
Proof.
  revert w. induction acts as [| a acts IH]; intros w Hinv Ht Hp Hstarved;
    [exact Ht |].
  destruct Hstarved as [Hnow Hlater]. simpl. apply IH; auto using step_invariant.
  apply step_starved; auto. intros now Ha. exact (Hnow now t Ha Ht).
Qed.

Lemma starved_app (r : ref) (acts acts' : list Action) (w : World) :
  starved r (acts ++ acts') w ->
  starved r acts w /\ starved r acts' (run acts w).
Proof.
  revert w. induction acts as [| a acts IH]; intros w H; [simpl; auto |].
  destruct H as [Hnow Hlater]. destruct (IH _ Hlater) as [H1 H2].
  simpl. auto.
Qed.

(** C6: a pending task for which no agent is eligible at any pass of the
    scheduler, over any sequence of steps, is after them the object it was,
    status [pending] included; and each of those passes returns normally,
    the selection having returned [None]. *)
Theorem starved_task_stays_pending (w : World) (task : ref) (t : Task)
    (acts : list Action) :
  reachable w ->
  task_objects w !! task = Some t -> status t = pending ->
  starved task acts w ->
  task_objects (run acts w) !! task = Some t
  /\ (forall before now after,
        acts = before ++ Cycle now :: after ->
        _select_optimal_agent (run before w) t = Returns None
        /\ (cycle now (run before w)).1 = Returns tt
        /\ task_objects (cycle now (run before w)).2 !! task = Some t).
Proof.
  intros Hreach Ht Hp Hstarved.
  pose proof (reachable_invariant w Hreach) as Hinv.
  split; [exact (run_starved acts w task t Hinv Ht Hp Hstarved) |].
  intros before now after ->.
  destruct (starved_app task before (Cycle now :: after) w Hstarved)
    as [Hbefore [Hnow _]].
  pose proof (run_starved before w task t Hinv Ht Hp Hbefore) as Ht'.
  pose proof (run_invariant before w Hinv) as Hinv'.
  specialize (Hnow now t eq_refl Ht').
  split; [apply select_none; exact Hnow |].
  split; [apply cycle_effect; exact Hinv' |].
  apply cycle_starved; assumption.
Qed.

Lemma starved_task_stays_pending_witness :
  let w :=
    run [RegisterAgent liquidity_agent_config 0; NewTask (token_task 0);
         ScheduleTask 0%nat; Start]
      AIOrchestrator__init__ in
  task_objects (run [Cycle 10; Cycle 20] w) !! 0%nat = Some (token_task 0).
Proof.
  refine (proj1 (starved_task_stays_pending _ 0%nat (token_task 0)
                   [Cycle 10; Cycle 20] _ _ _ _)).
  - eexists. reflexivity.
  - reflexivity.
  - reflexivity.
  - simpl. split; [| split; [| exact I]].
    + intros now t _ Ht. vm_compute in Ht. injection Ht as <-. reflexivity.
    + intros now t _ Ht. vm_compute in Ht. injection Ht as <-. reflexivity.
Defined.

(** ** A dispatched supervisor runs [_execute_task_safely] *)

Lemma resume_returned (i : nat) (exec : Outcome bool) (now : datetime)
    (w : World) (c : Supervisor) :
  coroutines w !! i = Some c -> sup_attempts c = [] ->
  resume i exec now w = w.
Proof. intros Hc Hnil. unfold resume. rewrite Hc, Hnil. reflexivity. Qed.

Lemma resume_through_returned (i : nat) (env : Z -> Outcome bool * datetime)
    (attempts : list Z) (w : World) (c : Supervisor) :
  coroutines w !! i = Some c -> sup_attempts c = [] ->
  resume_through i env attempts w = w.
Proof.
  intros Hc Hnil. induction attempts as [| attempt attempts IH];
    [reflexivity |].
  simpl. rewrite (resume_returned i _ _ w c Hc Hnil). exact IH.
Qed.

(** Resumed once per attempt it has left and undisturbed in between, a
    coroutine leaves its agent, its task and the log as the rest of the
    [for] loop of [_execute_task_safely] does, and has returned. *)
Lemma resume_through_run_attempts (i : nat)
    (env : Z -> Outcome bool * datetime) (attempts : list Z) :
  forall (w : World) (c : Supervisor) (a : AIAgent) (t : Task),
    coroutines w !! i = Some c -> sup_attempts c = attempts ->
    agent_objects w !! sup_agent c = Some a ->
    task_objects w !! sup_task c = Some t ->
    let result := run_attempts (sup_max_retries c) env attempts a t in
    let w' := resume_through i env attempts w in
    agent_objects w' !! sup_agent c = Some result.1.1
    /\ task_objects w' !! sup_task c = Some result.1.2
    /\ trace w' = trace w ++ result.2
    /\ coroutines w' !! i = Some (set_attempts [] c).
Proof.
  induction attempts as [| attempt attempts IH];
    intros w c a t Hc Hatt Ha Ht; cbv zeta.
  - simpl. rewrite app_nil_r. split; [exact Ha |]. split; [exact Ht |].
    split; [reflexivity |]. rewrite Hc. f_equal. destruct c as [ca ct cm cl]. cbn in *. subst cl.
    reflexivity.
  - cbn [resume_through run_attempts].
    assert (Hi : (i < length (coroutines w))%nat)
      by (eapply lookup_lt_Some; exact Hc).
    assert (Hra : (sup_agent c < length (agent_objects w))%nat)
      by (eapply lookup_lt_Some; exact Ha).
    assert (Hrt : (sup_task c < length (task_objects w))%nat)
      by (eapply lookup_lt_Some; exact Ht).
    unfold resume. rewrite Hc, Hatt, Ha, Ht.
    destruct (attempt_body (sup_max_retries c) attempt a t (env attempt).1
                (env attempt).2) as [[[a1 t1] evs] control].
    destruct control; set (w1 := emit evs _).
    + destruct (IH w1 (set_attempts attempts c) a1 t1) as (H1 & H2 & H3 & H4).
      * apply list_lookup_insert_eq. exact Hi.
      * reflexivity.
      * apply list_lookup_insert_eq. exact Hra.
      * apply list_lookup_insert_eq. exact Hrt.
      * cbn [sup_agent sup_task sup_max_retries set_attempts] in *.
        destruct (run_attempts (sup_max_retries c) env attempts a1 t1)
          as [[a2 t2] evs'].
        cbn [fst snd] in *. rewrite H3. subst w1. cbn [trace emit
          with_coroutines with_task_objects with_agent_objects].
        rewrite app_assoc. auto.
    + rewrite (resume_through_returned i env attempts w1 (set_attempts [] c)).
      * subst w1. cbn [fst snd agent_objects task_objects trace coroutines emit
          with_coroutines with_task_objects with_agent_objects].
        rewrite !list_lookup_insert_eq by assumption. auto.
      * apply list_lookup_insert_eq. exact Hi.
      * reflexivity.
Qed.

(** The coroutine the scheduler creates for a task runs
    [_execute_task_safely] on the selected agent and the dispatched task. *)
Lemma dispatched_supervisor_runs (current_time : datetime) (task agent : ref)
    (w : World) (t : Task) (a : AIAgent)
    (env : Z -> Outcome bool * datetime) :
  task_objects w !! task = Some t -> status t = pending ->
  execution_time t <= current_time ->
  _select_optimal_agent w t = Returns (Some agent) ->
  agent_objects w !! agent = Some a ->
  let w1 := (dispatch_if_due current_time task w).2 in
  let i := length (coroutines w) in
  let t1 := set_status executing
              (set_assigned_agent (Some (agent_id (config a))) t) in
  let result := _execute_task_safely a t1 env in
  let w2 := resume_through i env (range (retry_attempts (config a) + 1)) w1 in
  agent_objects w2 !! agent = Some result.1.1
  /\ task_objects w2 !! task = Some result.1.2
  /\ trace w2 = trace w1 ++ result.2.
Proof.
  intros Ht Hp Hdue Hsel Ha. cbv zeta.
  destruct (dispatch_if_due_cases current_time task w)
    as [Hsame | (t' & agent' & a' & Ht' & _ & _ & Hsel' & Ha' & ->)].
  - exfalso. unfold dispatch_if_due in Hsame. unfold_monad.
    rewrite Ht, Hp in Hsame. apply Z.leb_le in Hdue.
    rewrite bool_decide_eq_true_2 in Hsame by reflexivity.
    rewrite Hdue, Hsel, Ha in Hsame. cbn [andb] in Hsame.
    injection Hsame as Hsame.
    apply (f_equal (fun w => length (coroutines w))) in Hsame.
    cbn [coroutines with_coroutines with_task_objects] in Hsame.
    rewrite length_app in Hsame. simpl in Hsame. lia.
  - assert (t' = t) as -> by congruence.
    assert (agent' = agent) as -> by congruence.
    assert (a' = a) as -> by congruence.
    cbn [snd]. unfold _execute_task_safely.
    set (c := {| sup_agent := agent; sup_task := task;
                 sup_max_retries := retry_attempts (config a);
                 sup_attempts := range (retry_attempts (config a) + 1) |}).
    set (w1 := with_coroutines _ _).
    destruct (resume_through_run_attempts (length (coroutines w)) env
                (range (retry_attempts (config a) + 1)) w1 c a
                (set_status executing
                   (set_assigned_agent (Some (agent_id (config a))) t)))
      as (H1 & H2 & H3 & _).
    + subst w1. cbn [coroutines with_coroutines with_task_objects].
      apply list_lookup_middle. reflexivity.
    + reflexivity.
    + exact Ha.
    + subst w1. cbn [task_objects with_coroutines with_task_objects sup_task c].
      apply list_lookup_insert_eq. eapply lookup_lt_Some. exact Ht.
    + auto.
Qed.

(** ** The system at work *)

(** [main()]: three agents, one task; the first cycle hands the task to the
    only agent with the capability and creates its supervisor. *)
Example main_first_cycle :
  let w :=
    run [RegisterAgent token_agent_config 0;
         RegisterAgent liquidity_agent_config 0;
         RegisterAgent payment_agent_config 0;
         NewTask (token_task 0); ScheduleTask 0%nat; Start; Cycle 1]
      AIOrchestrator__init__ in
  assigned_agent <$> task_objects w !! 0%nat = Some (Some "token_distributor")
  /\ status_of w 0%nat = Some executing
  /\ coroutines w
     = [{| sup_agent := 0%nat; sup_task := 0%nat; sup_max_retries := 3;
           sup_attempts := [0; 1; 2; 3] |}].
Proof. cbv zeta. split; [| split]; vm_compute; reflexivity. Qed.

(** Two agents with the capability and a success rate of 100: the one with
    the higher priority is selected, wherever it stands in the registry. *)
Example higher_priority_is_selected :
  let low :=
    {| agent_id := "B"; agent_type := "WORKER"; priority := 1;
       capabilities := ["TOKEN_DISTRIBUTION"]; max_gas := 1;
       success_threshold := 50; retry_attempts := 0 |} in
  let high :=
    {| agent_id := "A"; agent_type := "WORKER"; priority := 2;
       capabilities := ["TOKEN_DISTRIBUTION"]; max_gas := 1;
       success_threshold := 50; retry_attempts := 0 |} in
  _select_optimal_agent
    (run [RegisterAgent low 0; RegisterAgent high 0] AIOrchestrator__init__)
    (token_task 0) = Returns (Some 1%nat)
  /\ _select_optimal_agent
       (run [RegisterAgent high 0; RegisterAgent low 0] AIOrchestrator__init__)
       (token_task 0) = Returns (Some 0%nat).
Proof. cbv zeta. split; vm_compute; reflexivity. Qed.

(** Agents that tie on priority and success rate: the first registered is
    selected. *)
Example tie_goes_to_first_registered :
  let first :=
    {| agent_id := "first"; agent_type := "WORKER"; priority := 1;
       capabilities := ["TOKEN_DISTRIBUTION"]; max_gas := 1;
       success_threshold := 50; retry_attempts := 0 |} in
  let second :=
    {| agent_id := "second"; agent_type := "WORKER"; priority := 1;
       capabilities := ["TOKEN_DISTRIBUTION"]; max_gas := 1;
       success_threshold := 50; retry_attempts := 0 |} in
  _select_optimal_agent
    (run [RegisterAgent first 0; RegisterAgent second 0] AIOrchestrator__init__)
    (token_task 0) = Returns (Some 0%nat).
Proof. vm_compute. reflexivity. Qed.

(** A supervised run of [main()]'s task on [main()]'s agent whose third
    attempt succeeds: the log and the sleeps, in order. *)
Example third_attempt_succeeds :
  (_execute_task_safely (AIAgent__init__ token_agent_config 0) (token_task 0)
     (fun attempt => (Returns (2 <=? attempt), attempt))).2
  = [Log INFO (MsgExecuting "token_distributor" "distribute_001");
     Log ERROR (MsgFailed "distribute_001");
     Log WARNING (MsgRetry "distribute_001" 1 3);
     Sleep 1;
     Log INFO (MsgExecuting "token_distributor" "distribute_001");
     Log ERROR (MsgFailed "distribute_001");
     Log WARNING (MsgRetry "distribute_001" 2 3);
     Sleep 2;
     Log INFO (MsgExecuting "token_distributor" "distribute_001");
     Log INFO (MsgCompleted "distribute_001");
     Log INFO (MsgCompletedBy "distribute_001" "token_distributor")].
Proof. vm_compute. reflexivity. Qed.

(** * Further properties *)

(** ** The success rate moves with the outcome *)



(** ** A supervised run, whatever the executor does *)

(** Among the attempts 0 .. n-1 either all fail or there is a first that
    succeeds. *)
Lemma first_success_or_all_fail (env : Z -> Outcome bool * datetime) (n : Z) :
  0 <= n ->
  (forall i, 0 <= i < n -> fails env i)
  \/ exists k, 0 <= k < n /\ succeeds env k
               /\ forall i, 0 <= i < k -> fails env i.
Proof.
  revert n. apply natlike_ind.
  - left. intros i Hi. lia.
  - intros n Hn [Hall | (k & Hk & Hs & Hbefore)].
    + destruct (is_success (env n).1) eqn:E.
      * right. exists n. split; [lia |]. split; [exact E | exact Hall].
      * left. intros i Hi. destruct (decide (i = n)) as [-> | Hne];
          [exact E | apply Hall; lia].
    + right. exists k. split; [lia | auto].
Qed.

(** What one iteration of the supervisor's loop does to the agent. *)
Lemma attempt_body_agent (max_retries attempt : Z) (agent : AIAgent)
    (task : Task) (exec : Outcome bool) (now : datetime) :
  let agent' := (attempt_body max_retries attempt agent task exec now).1.1.1 in
  executed_tasks agent'
  = executed_tasks agent + (if is_success exec then 1 else 0)
  /\ config agent' = config agent /\ is_active agent' = is_active agent.
Proof.
  unfold attempt_body, execute_task, _update_success_rate.
  destruct exec as [[] | e]; simpl.
  - destruct (executed_tasks agent + 1 =? 0); simpl; auto.
  - destruct (executed_tasks agent =? 0), (attempt <? max_retries); simpl;
      split; auto; lia.
  - destruct (executed_tasks agent =? 0), (attempt <? max_retries); simpl;
      split; auto; lia.
Qed.

Lemma run_attempts_agent_all_fail (max_retries : Z)
    (env : Z -> Outcome bool * datetime) (attempts : list Z)
    (agent : AIAgent) (task : Task) :
  Forall (fails env) attempts ->
  executed_tasks (run_attempts max_retries env attempts agent task).1.1
  = executed_tasks agent.
Proof.
  revert agent task.
  induction attempts as [| attempt attempts IH]; intros agent task Hall;
    [reflexivity |].
  inversion Hall as [| ? ? Hfail Hrest]; subst.
  pose proof (attempt_body_agent max_retries attempt agent task
                (env attempt).1 (env attempt).2) as [Hn _].
  destruct (attempt_body_failure max_retries attempt agent task
              (env attempt).1 (env attempt).2 Hfail)
    as (agent' & task' & evs & Hbody & _).
  cbv zeta in Hn. rewrite Hbody in Hn. unfold fails in Hfail.
  rewrite Hfail in Hn. simpl in Hn.
  simpl. rewrite Hbody. specialize (IH agent' task' Hrest).
  destruct (run_attempts max_retries env attempts agent' task')
    as [[agent'' task''] evs'].
  simpl in *. lia.
Qed.

Lemma run_attempts_agent_first_success (max_retries : Z)
    (env : Z -> Outcome bool * datetime) (before : list Z) (attempt : Z)
    (after : list Z) (agent : AIAgent) (task : Task) :
  Forall (fails env) before ->
  succeeds env attempt ->
  executed_tasks
    (run_attempts max_retries env (before ++ attempt :: after) agent task).1.1
  = executed_tasks agent + 1.
Proof.
  revert agent task.
  induction before as [| first before IH]; intros agent task Hall Hsucc.
  - pose proof (attempt_body_agent max_retries attempt agent task
                  (env attempt).1 (env attempt).2) as [Hn _].
    destruct (attempt_body_success max_retries attempt agent task
                (env attempt).1 (env attempt).2 Hsucc)
      as (agent' & task' & evs & Hbody & _).
    cbv zeta in Hn. rewrite Hbody in Hn. unfold succeeds in Hsucc.
    rewrite Hsucc in Hn. simpl. rewrite Hbody. exact Hn.
  - inversion Hall as [| ? ? Hfail Hrest]; subst.
    pose proof (attempt_body_agent max_retries first agent task
                  (env first).1 (env first).2) as [Hn _].
    destruct (attempt_body_failure max_retries first agent task
                (env first).1 (env first).2 Hfail)
      as (agent' & task' & evs & Hbody & _).
    cbv zeta in Hn. rewrite Hbody in Hn. unfold fails in Hfail.
    rewrite Hfail in Hn. simpl in Hn.
    simpl. rewrite Hbody. specialize (IH agent' task' Hrest Hsucc).
    destruct (run_attempts max_retries env (before ++ attempt :: after)
                agent' task') as [[agent'' task''] evs'].
    simpl in *. lia.
Qed.

(** The two ways a supervised run can go. *)
Lemma supervised_run_shape (agent : AIAgent) (task : Task)
    (env : Z -> Outcome bool * datetime) (r : Z) :
  retry_attempts (config agent) = r -> 0 <= r ->
  let result := _execute_task_safely agent task env in
  ((forall i, 0 <= i <= r -> fails env i)
   /\ timeline result.2 = concat (failed_retried <$> range r) ++ [Attempt]
   /\ status result.1.2 = failed
   /\ executed_tasks result.1.1 = executed_tasks agent)
  \/ (exists k, 0 <= k <= r /\ succeeds env k
        /\ timeline result.2 = concat (failed_retried <$> range k) ++ [Attempt]
        /\ status result.1.2 = completed
        /\ executed_tasks result.1.1 = executed_tasks agent + 1).
Proof.
  intros Hr Hpos. cbv zeta.
  destruct (first_success_or_all_fail env (r + 1)) as [Hall | (k & Hk & Hs & Hbefore)];
    [lia | |].
  - left. assert (Hall' : forall i, 0 <= i <= r -> fails env i)
      by (intros i Hi; apply Hall; lia).
    destruct (supervised_all_fail agent task env r Hr Hpos Hall') as [Ht Hst].
    repeat (split; [assumption |]).
    unfold _execute_task_safely. rewrite Hr.
    apply run_attempts_agent_all_fail, range_Forall. exact Hall.
  - right. exists k. split; [lia |]. split; [exact Hs |].
    destruct (supervised_first_success agent task env r (k + 1) Hr) as [Ht Hst].
    { lia. }
    { intros i Hi. apply Hbefore. lia. }
    { replace (k + 1 - 1) with k by lia. exact Hs. }
    replace (k + 1 - 1) with k in Ht by lia.
    repeat (split; [assumption |]).
    unfold _execute_task_safely. rewrite Hr.
    rewrite (range_split (r + 1) k) by lia.
    apply run_attempts_agent_first_success; [| exact Hs].
    apply range_Forall. exact Hbefore.
Qed.

Lemma geometric_sum_mono (k r : Z) :
  0 <= k <= r -> 0 <= geometric_sum k <= geometric_sum r.
Proof.
  intros Hk. rewrite !geometric_sum_closed by lia.
  assert (2 ^ k <= 2 ^ r) by (apply Z.pow_le_mono_r; lia).
  assert (0 < 2 ^ k) by (apply Z.pow_pos_nonneg; lia). lia.
Qed.

(** X2: whatever the executor does at each attempt, a supervised run with
    [retry_attempts = r >= 0] makes at least one and at most [r + 1]
    attempts, sleeps at most [2^r - 1] in all, and leaves the task
    [completed] or [failed]. *)
Theorem supervised_run_bounds (agent : AIAgent) (task : Task)
    (env : Z -> Outcome bool * datetime) (r : Z) :
  retry_attempts (config agent) = r -> 0 <= r ->
  let result := _execute_task_safely agent task env in
  1 <= attempts_made result.2 <= r + 1
  /\ 0 <= total_backoff result.2 <= 2 ^ r - 1
  /\ (status result.1.2 = completed \/ status result.1.2 = failed).
Proof.
  intros Hr Hpos. cbv zeta.
  destruct (supervised_run_shape agent task env r Hr Hpos)
    as [(_ & Ht & Hs & _) | (k & Hk & _ & Ht & Hs & _)].
  - rewrite (attempts_of_retried _ _ Ht), length_range by lia.
    rewrite (backoff_of_retried _ _ Ht).
    change (foldr Z.add 0 ((fun attempt => 2 ^ attempt) <$> range r))
      with (geometric_sum r).
    pose proof (geometric_sum_mono r r ltac:(lia)).
    rewrite <- geometric_sum_closed by lia. auto with lia.
  - rewrite (attempts_of_retried _ _ Ht), length_range by lia.
    rewrite (backoff_of_retried _ _ Ht).
    change (foldr Z.add 0 ((fun attempt => 2 ^ attempt) <$> range k))
      with (geometric_sum k).
    pose proof (geometric_sum_mono k r ltac:(lia)).
    rewrite <- (geometric_sum_closed r) by lia. auto with lia.
Qed.

Lemma supervised_run_bounds_witness :
  let result :=
    _execute_task_safely (AIAgent__init__ liquidity_agent_config 0)
      (token_task 0) (fun attempt => (Returns (Z.even attempt), attempt)) in
  1 <= attempts_made result.2 <= 2 + 1
  /\ 0 <= total_backoff result.2 <= 2 ^ 2 - 1
  /\ (status result.1.2 = completed \/ status result.1.2 = failed).
Proof.
  refine (supervised_run_bounds (AIAgent__init__ liquidity_agent_config 0)
            (token_task 0) (fun attempt => (Returns (Z.even attempt), attempt))
            2 eq_refl _).
  lia.
Defined.

(** X3: a supervised run with [retry_attempts = r >= 0] leaves the task
    [completed] exactly when the executor succeeds at one of the attempts
    0 .. r, and it is exactly then that the agent's [executed_tasks] grows,
    by one: the attempts after the first success are not made. *)
Theorem supervised_run_outcome (agent : AIAgent) (task : Task)
    (env : Z -> Outcome bool * datetime) (r : Z) :
  retry_attempts (config agent) = r -> 0 <= r ->
  let result := _execute_task_safely agent task env in
  (status result.1.2 = completed <-> exists i, 0 <= i <= r /\ succeeds env i)
  /\ executed_tasks result.1.1
     = executed_tasks agent
       + (if decide (status result.1.2 = completed) then 1 else 0).
Proof.
  intros Hr Hpos. cbv zeta.
  destruct (supervised_run_shape agent task env r Hr Hpos)
    as [(Hall & _ & Hs & Hn) | (k & Hk & Hsucc & _ & Hs & Hn)].
  - rewrite Hs, Hn. rewrite decide_False by discriminate. split; [| lia].
    split; [discriminate |]. intros (i & Hi & Hsi).
    specialize (Hall i Hi). unfold fails, succeeds in *. congruence.
  - rewrite Hs, Hn. rewrite decide_True by reflexivity. split; [| lia].
    split; [| reflexivity]. intros _. exists k. auto.
Qed.

Lemma supervised_run_outcome_witness :
  let result :=
    _execute_task_safely (AIAgent__init__ token_agent_config 0) (token_task 0)
      (fun attempt => (Returns (3 <=? attempt), attempt)) in
  (status result.1.2 = completed
   <-> exists i, 0 <= i <= 3
                 /\ succeeds (fun attempt => (Returns (3 <=? attempt), attempt)) i)
  /\ executed_tasks result.1.1
     = 0 + (if decide (status result.1.2 = completed) then 1 else 0).
Proof.
  refine (supervised_run_outcome (AIAgent__init__ token_agent_config 0)
            (token_task 0) (fun attempt => (Returns (3 <=? attempt), attempt))
            3 eq_refl _).
  lia.
Defined.

(** ** The executor *)

Lemma dict_getitem_returns {V} (d : dict V) (k : string) :
  (exists v, dict_getitem d k = Returns v) <-> is_Some (dict_get d k).
Proof.
  unfold dict_getitem. destruct (dict_get d k) as [v |].
  - split; eauto.
  - split; [intros [v Hv]; discriminate Hv | intros [v Hv]; discriminate Hv].
Qed.

(** X4: [_handle_poc_verification] returns [True] exactly when the payload
    has the keys [user], [latitude], [longitude] and [beacon_id], whatever
    their values: the location check accepts everything.  With a key
    missing it returns [False] (the [KeyError] is caught and logged). *)
Theorem poc_verification_needs_only_keys (task : Task) :
  (_handle_poc_verification task).1 = true
  <-> Forall (fun k => is_Some (dict_get (data task) k))
        ["user"; "latitude"; "longitude"; "beacon_id"].
Proof.
  unfold _handle_poc_verification, poc_verification_body.
  rewrite !Forall_cons, Forall_nil.
  rewrite <- !dict_getitem_returns.
  destruct (dict_getitem (data task) "user") as [user | e1];
    [| simpl; split; [discriminate | intros [[v Hv] _]; discriminate Hv]].
  destruct (dict_getitem (data task) "latitude") as [lat | e2];
    [| simpl; split; [discriminate | intros (_ & [v Hv] & _); discriminate Hv]].
  destruct (dict_getitem (data task) "longitude") as [lng | e3];
    [| simpl; split;
       [discriminate | intros (_ & _ & [v Hv] & _); discriminate Hv]].
  destruct (dict_getitem (data task) "beacon_id") as [beacon | e4];
    [| simpl; split;
       [discriminate | intros (_ & _ & _ & [v Hv] & _); discriminate Hv]].
  simpl. split; [| reflexivity]. intros _. eauto 10.
Qed.

Lemma execute_by_type_unknown (h : ChainHandlers) (task : Task) :
  task_type task ∉ known_task_types ->
  _execute_by_type h task
  = (false, [(WARNING, MsgUnknownTaskType (task_type task))]).
Proof.
  intros Hnot. unfold _execute_by_type.
  repeat match goal with
         | |- context [String.eqb ?a ?b] =>
             destruct (String.eqb_spec a b) as [Heq | _];
             [exfalso; apply Hnot; rewrite Heq; unfold known_task_types;
              repeat constructor |]
         end.
  reflexivity.
Qed.

(** X5: a task whose type is none of the six the executor knows fails at
    every attempt, whatever the contract lookup and the chain do: its
    supervised run makes all [r + 1] attempts, sleeps
    [2^0 + ... + 2^(r-1)] between them and leaves the task [failed] and the
    agent's [executed_tasks] as it was. *)
Theorem unknown_type_exhausts_retries (agent : AIAgent) (task : Task)
    (contract : Z -> Outcome unit) (chain : Z -> ChainHandlers)
    (clock : Z -> datetime) (r : Z) :
  retry_attempts (config agent) = r -> 0 <= r ->
  task_type task ∉ known_task_types ->
  let result :=
    _execute_task_safely agent task (executor contract chain clock task) in
  attempts_made result.2 = r + 1
  /\ total_backoff result.2 = geometric_sum r
  /\ status result.1.2 = failed
  /\ executed_tasks result.1.1 = executed_tasks agent.
Proof.
  intros Hr Hpos Hnot. cbv zeta.
  assert (Hall : forall i, 0 <= i <= r ->
                         fails (executor contract chain clock task) i).
  { intros i _. unfold fails, executor. simpl.
    destruct (contract i); [| reflexivity].
    rewrite execute_by_type_unknown by exact Hnot. reflexivity. }
  destruct (supervised_all_fail agent task _ r Hr Hpos Hall) as [Ht Hs].
  split; [| split; [| split]].
  - rewrite (attempts_of_retried _ _ Ht), length_range by lia. reflexivity.
  - apply backoff_of_retried. exact Ht.
  - exact Hs.
  - unfold _execute_task_safely. rewrite Hr.
    apply run_attempts_agent_all_fail, range_Forall.
    intros i Hi. apply Hall. lia.
Qed.

Lemma unknown_type_exhausts_retries_witness :
  let task := set_status executing (token_task 0) in
  let mistyped :=
    {| task_id := task_id task; task_type := "token_distribution";
       target_contract := target_contract task;
       execution_time := execution_time task; data := data task;
       task_priority := task_priority task; is_recurring := is_recurring task;
       recurring_interval := recurring_interval task;
       assigned_agent := assigned_agent task; status := status task;
       retry_count := retry_count task |} in
  let chain := fun _ : Z =>
    {| _handle_token_distribution := fun _ => true;
       _handle_commission_calculation := fun _ => true;
       _handle_liquidity_management := fun _ => true;
       _handle_payment_processing := fun _ => true;
       _handle_kyc_verification := fun _ => true |} in
  let result :=
    _execute_task_safely (AIAgent__init__ token_agent_config 0) mistyped
      (executor (fun _ => Returns tt) chain (fun attempt => attempt) mistyped)
  in
  attempts_made result.2 = 3 + 1
  /\ total_backoff result.2 = geometric_sum 3
  /\ status result.1.2 = failed
  /\ executed_tasks result.1.1 = 0.
Proof.
  cbv zeta.
  refine (unknown_type_exhausts_retries
            (AIAgent__init__ token_agent_config 0) _ _ _ _ 3 eq_refl _ _).
  - lia.
  - refine (proj1 (bool_decide_eq_false _) _). reflexivity.
Defined.

Lemma execute_by_type_poc (h : ChainHandlers) (task : Task) :
  task_type task = "POC_VERIFICATION" ->
  _execute_by_type h task = _handle_poc_verification task.
Proof.
  intros Htype. unfold _execute_by_type. rewrite Htype. reflexivity.
Qed.

(** X20: a [POC_VERIFICATION] task is settled by its payload alone, and
    retrying it is futile.  If the handler rejects the payload, every one of
    the [r + 1] attempts fails in the same way, whatever the contract lookup
    and the chain do, and the whole backoff is slept; if it accepts and the
    contract lookup of the first attempt returns, the task is [completed]
    at the first attempt, without any sleep. *)
Theorem poc_task_is_settled_by_payload (agent : AIAgent) (task : Task)
    (contract : Z -> Outcome unit) (chain : Z -> ChainHandlers)
    (clock : Z -> datetime) (r : Z) :
  retry_attempts (config agent) = r -> 0 <= r ->
  task_type task = "POC_VERIFICATION" ->
  let result :=
    _execute_task_safely agent task (executor contract chain clock task) in
  ((_handle_poc_verification task).1 = false ->
   status result.1.2 = failed /\ attempts_made result.2 = r + 1
   /\ total_backoff result.2 = geometric_sum r)
  /\ ((_handle_poc_verification task).1 = true ->
      contract 0 = Returns tt ->
      status result.1.2 = completed /\ attempts_made result.2 = 1
      /\ total_backoff result.2 = 0).
Proof.
  intros Hr Hpos Htype. cbv zeta. split.
  - intros Hrej.
    assert (Hall : forall i, 0 <= i <= r ->
                             fails (executor contract chain clock task) i).
    { intros i _. unfold fails, executor. simpl.
      destruct (contract i); [| reflexivity].
      rewrite execute_by_type_poc, Hrej by exact Htype. reflexivity. }
    destruct (supervised_all_fail agent task _ r Hr Hpos Hall) as [Ht Hs].
    split; [exact Hs |]. split.
    + rewrite (attempts_of_retried _ _ Ht), length_range by lia. reflexivity.
    + apply backoff_of_retried. exact Ht.
  - intros Hacc Hcontract.
    destruct (supervised_first_success agent task
                (executor contract chain clock task) r 1 Hr) as [Ht Hs].
    + lia.
    + intros i Hi. lia.
    + unfold succeeds, executor. change (1 - 1) with 0. cbn [fst].
      rewrite Hcontract.
      rewrite execute_by_type_poc, Hacc by exact Htype. reflexivity.
    + split; [exact Hs |]. split.
      * rewrite (attempts_of_retried _ _ Ht). reflexivity.
      * rewrite (backoff_of_retried _ _ Ht). reflexivity.
Qed.

Lemma poc_task_is_settled_by_payload_witness :
  let task :=
    {| task_id := "poc_001"; task_type := "POC_VERIFICATION";
       target_contract := "0xabc"; execution_time := 0;
       data := [("user", "0x123"); ("latitude", "40.7");
                ("longitude", "-74.0")];
       task_priority := 5; is_recurring := false; recurring_interval := None;
       assigned_agent := Some "token_agent_001"; status := executing;
       retry_count := 0 |} in
  let chain := fun _ : Z =>
    {| _handle_token_distribution := fun _ => true;
       _handle_commission_calculation := fun _ => true;
       _handle_liquidity_management := fun _ => true;
       _handle_payment_processing := fun _ => true;
       _handle_kyc_verification := fun _ => true |} in
  let result :=
    _execute_task_safely (AIAgent__init__ token_agent_config 0) task
      (executor (fun _ => Returns tt) chain (fun attempt => attempt) task) in
  status result.1.2 = failed /\ attempts_made result.2 = 3 + 1
  /\ total_backoff result.2 = geometric_sum 3.
Proof.
  cbv zeta.
  refine (proj1 (poc_task_is_settled_by_payload
                   (AIAgent__init__ token_agent_config 0) _ _ _ _ 3 _ _ _) _).
  - reflexivity.
  - lia.
  - reflexivity.
  - reflexivity.
Defined.

(** ** Commissions *)

Lemma py_int_inject_scaled (s : Z) (p : positive) :
  py_int (inject_Z s * (1 # p) * 1) = Z.quot s (Z.pos p).
Proof.
  unfold py_int. simpl. rewrite !Z.mul_1_r, Pos.mul_1_r. reflexivity.
Qed.

(** X6: for a sale amount that binary64 represents exactly
    ([|sale_amount| <= 2^53]), the commission at levels 1 to 4 is the sale
    amount divided by [2^level], truncated toward zero, and 0 at any other
    level; for a sale amount that is not negative, the commissions of the
    four levels together never exceed it. *)
Theorem commission_by_level (broker : string) (sale_amount : Z) :
  Z.abs sale_amount <= 2 ^ 53 ->
  (forall level,
     _calculate_optimal_commission broker sale_amount level
     = if decide (1 <= level <= 4) then Z.quot sale_amount (2 ^ level) else 0)
  /\ (0 <= sale_amount ->
      0 <= _calculate_optimal_commission broker sale_amount 1
           + _calculate_optimal_commission broker sale_amount 2
           + _calculate_optimal_commission broker sale_amount 3
           + _calculate_optimal_commission broker sale_amount 4
        <= sale_amount).
Proof.
  intros _.
  assert (Hlevel : forall level,
             _calculate_optimal_commission broker sale_amount level
             = if decide (1 <= level <= 4)
               then Z.quot sale_amount (2 ^ level) else 0).
  { intros level. unfold _calculate_optimal_commission,
      _get_broker_performance_multiplier, base_rates.
    cbn [rates_get].
    destruct (Z.eqb_spec 1 level) as [<- | H1];
      [rewrite py_int_inject_scaled, decide_True by lia; reflexivity |].
    destruct (Z.eqb_spec 2 level) as [<- | H2];
      [rewrite py_int_inject_scaled, decide_True by lia; reflexivity |].
    destruct (Z.eqb_spec 3 level) as [<- | H3];
      [rewrite py_int_inject_scaled, decide_True by lia; reflexivity |].
    destruct (Z.eqb_spec 4 level) as [<- | H4];
      [rewrite py_int_inject_scaled, decide_True by lia; reflexivity |].
    rewrite decide_False by lia.
    unfold py_int. simpl. rewrite !Z.mul_0_r. reflexivity. }
  split; [exact Hlevel |].
  intros Hpos. rewrite !Hlevel.
  rewrite !decide_True by lia.
  rewrite !Z.quot_div_nonneg by lia.
  change (2 ^ 1) with 2. change (2 ^ 2) with 4.
  change (2 ^ 3) with 8. change (2 ^ 4) with 16.
  pose proof (Z.div_mod sale_amount 2 ltac:(lia)).
  pose proof (Z.mod_pos_bound sale_amount 2 ltac:(lia)).
  pose proof (Z.div_mod sale_amount 4 ltac:(lia)).
  pose proof (Z.mod_pos_bound sale_amount 4 ltac:(lia)).
  pose proof (Z.div_mod sale_amount 8 ltac:(lia)).
  pose proof (Z.mod_pos_bound sale_amount 8 ltac:(lia)).
  pose proof (Z.div_mod sale_amount 16 ltac:(lia)).
  pose proof (Z.mod_pos_bound sale_amount 16 ltac:(lia)).
  lia.
Qed.

Lemma commission_by_level_witness :
  _calculate_optimal_commission "0xbroker" 1001 3
  = if decide (1 <= 3 <= 4) then Z.quot 1001 (2 ^ 3) else 0.
Proof.
  refine (proj1 (commission_by_level "0xbroker" 1001 _) 3).
  vm_compute. discriminate.
Defined.

(** ** A pass of the scheduler, exactly *)

Lemma select_some_eligible (w : World) (task : Task) (agent : ref) :
  _select_optimal_agent w task = Returns (Some agent) ->
  agent ∈ eligible_agents w task.
Proof.
  unfold _select_optimal_agent.
  destruct (eligible_agents w task) as [| first rest]; [discriminate |].
  simpl. intros H. injection H as <-.
  destruct (max_from_first_max (selection_key w) rest [] [] first)
    as (before & after & Heq & _); [constructor | constructor |].
  simpl in Heq. rewrite Heq. apply elem_of_app. right. constructor.
Qed.

Lemma select_same (w w' : World) (task : Task) :
  agent_objects w' = agent_objects w -> agents w' = agents w ->
  _select_optimal_agent w' task = _select_optimal_agent w task.
Proof.
  intros Ho Ha. unfold _select_optimal_agent, selection_key.
  rewrite (eligible_agents_same w w' task Ho Ha), Ho. reflexivity.
Qed.

Lemma selected_for_same (w w' : World) (now : datetime) (t : Task) :
  agent_objects w' = agent_objects w -> agents w' = agents w ->
  selected_for w' now t = selected_for w now t.
Proof.
  intros Ho Ha. unfold selected_for.
  rewrite (select_same w w' t Ho Ha), Ho. reflexivity.
Qed.

Lemma selected_for_Some (w : World) (now : datetime) (t : Task)
    (agent : ref) (a : AIAgent) :
  selected_for w now t = Some (agent, a) <->
  status t = pending /\ execution_time t <= now
  /\ _select_optimal_agent w t = Returns (Some agent)
  /\ agent_objects w !! agent = Some a.
Proof.
  unfold selected_for.
  destruct (bool_decide (status t = pending)) eqn:Hp.
  - apply bool_decide_eq_true in Hp.
    destruct (Z.leb_spec (execution_time t) now) as [Hdue | Hnot]; simpl.
    + destruct (_select_optimal_agent w t) as [[g |] | e].
      * destruct (agent_objects w !! g) as [a' |] eqn:Hg.
        -- split.
           ++ intros H. injection H as <- <-. auto.
           ++ intros (_ & _ & Hsel & Ha). injection Hsel as <-.
              rewrite Hg in Ha. injection Ha as <-. reflexivity.
        -- split; [discriminate |].
           intros (_ & _ & Hsel & Ha). injection Hsel as <-. congruence.
      * split; [discriminate | intros (_ & _ & Hsel & _); discriminate Hsel].
      * split; [discriminate | intros (_ & _ & Hsel & _); discriminate Hsel].
    + split; [discriminate | intros (_ & Hdue & _); lia].
  - apply bool_decide_eq_false in Hp. simpl.
    split; [discriminate | intros (Hp' & _); contradiction].
Qed.

Lemma selected_for_assigned (w : World) (now : datetime) (a : AIAgent)
    (t : Task) :
  selected_for w now (assign a t) = None.
Proof. reflexivity. Qed.

Lemma dispatch_of_idempotent (w : World) (now : datetime) (t : Task) :
  dispatch_of w now (dispatch_of w now t) = dispatch_of w now t.
Proof.
  unfold dispatch_of at 2 3.
  destruct (selected_for w now t) as [[g a] |] eqn:Hsel.
  - unfold dispatch_of. rewrite selected_for_assigned. reflexivity.
  - unfold dispatch_of. rewrite Hsel. reflexivity.
Qed.

Lemma dispatch_of_pending (w : World) (now : datetime) (t : Task) :
  status (dispatch_of w now t) = pending -> dispatch_of w now t = t.
Proof.
  unfold dispatch_of. destruct (selected_for w now t) as [[g a] |];
    [discriminate | reflexivity].
Qed.

Lemma dispatch_of_same (w w' : World) (now : datetime) (t : Task) :
  agent_objects w' = agent_objects w -> agents w' = agents w ->
  dispatch_of w' now t = dispatch_of w now t.
Proof.
  intros Ho Ha. unfold dispatch_of.
  rewrite (selected_for_same w w' now t Ho Ha). reflexivity.
Qed.

(** One iteration of the scan, as a function of the world. *)
Lemma dispatch_if_due_exact (current_time : datetime) (task : ref) (w : World) :
  dispatch_if_due current_time task w
  = (Returns tt,
     match task_objects w !! task with
     | Some t =>
         match selected_for w current_time t with
         | Some (agent, a) =>
             with_coroutines (fun cs => cs ++ [supervisor_of agent task a])
               (with_task_objects
                  (fun objects => <[task := assign a t]> objects) w)
         | None => w
         end
     | None => w
     end).
Proof.
  unfold dispatch_if_due, selected_for. unfold_monad.
  destruct (task_objects w !! task) as [t |]; [| reflexivity].
  destruct (bool_decide (status t = pending) && (execution_time t <=? current_time));
    [| reflexivity].
  destruct (_select_optimal_agent w t) as [[agent |] | e] eqn:Hsel.
  - destruct (agent_objects w !! agent) as [a |]; reflexivity.
  - reflexivity.
  - exfalso. exact (select_never_raises w t e Hsel).
Qed.

Lemma dispatch_if_due_lookup (current_time : datetime) (task r : ref)
    (w : World) :
  task_objects (dispatch_if_due current_time task w).2 !! r
  = if decide (r = task)
    then dispatch_of w current_time <$> task_objects w !! r
    else task_objects w !! r.
Proof.
  rewrite dispatch_if_due_exact. cbn [snd]. unfold dispatch_of.
  destruct (decide (r = task)) as [-> | Hne].
  - destruct (task_objects w !! task) as [t |] eqn:Ht; [| exact Ht].
    cbn [fmap option_fmap option_map].
    destruct (selected_for w current_time t) as [[g a] |].
    + cbn [task_objects with_coroutines with_task_objects].
      apply list_lookup_insert_eq. eapply lookup_lt_Some. exact Ht.
    + exact Ht.
  - destruct (task_objects w !! task) as [t |]; [| reflexivity].
    destruct (selected_for w current_time t) as [[g a] |]; [| reflexivity].
    cbn [task_objects with_coroutines with_task_objects].
    apply list_lookup_insert_ne. congruence.
Qed.

Lemma pass_invariant_refl (w : World) (now : datetime) : pass_invariant w now w.
Proof.
  split; [auto 10 |]. split; [intros r; left; reflexivity |].
  exists []. rewrite app_nil_r. repeat split; constructor.
Qed.

(** An iteration keeps the pass where it should be. *)
Lemma dispatch_if_due_pass (w0 : World) (now : datetime) (task : ref)
    (w : World) :
  pass_invariant w0 now w ->
  pass_invariant w0 now (dispatch_if_due now task w).2.
Proof.
  intros (Hframe & Hobj & new & Hco & Hnew & Hdup & Hexec).
  pose proof Hframe as (Hao & Hag & Htk & Hwf & Hrun & Htr).
  rewrite dispatch_if_due_exact. cbn [snd].
  destruct (task_objects w !! task) as [t |] eqn:Ht;
    [| split; [exact Hframe |]; split; [exact Hobj |]; eauto 10].
  destruct (selected_for w now t) as [[g a] |] eqn:Hsel;
    [| split; [exact Hframe |]; split; [exact Hobj |]; eauto 10].
  pose proof (proj1 (selected_for_Some w now t g a) Hsel) as (Hp & _).
  rewrite (selected_for_same w0 w now t Hao Hag) in Hsel.
  assert (Ht0 : task_objects w0 !! task = Some t).
  { destruct (Hobj task) as [<- | (t0 & Ht0 & Ht')]; [exact Ht |].
    rewrite Ht in Ht'. injection Ht' as Ht'.
    rewrite Ht' in Hp. apply dispatch_of_pending in Hp. congruence. }
  split; [exact Hframe |]. split.
  - intros r. cbn [task_objects with_coroutines with_task_objects].
    destruct (decide (r = task)) as [-> | Hne].
    + right. exists t. split; [exact Ht0 |].
      rewrite list_lookup_insert_eq by (eapply lookup_lt_Some; exact Ht).
      unfold dispatch_of. rewrite Hsel. reflexivity.
    + rewrite list_lookup_insert_ne by congruence. apply Hobj.
  - exists (new ++ [supervisor_of g task a]).
    cbn [coroutines task_objects with_coroutines with_task_objects].
    assert (Hfresh : task ∉ sup_task <$> new).
    { intros Hin. apply list_elem_of_fmap in Hin.
      destruct Hin as (c & Hc & Hin).
      rewrite Forall_forall in Hexec. specialize (Hexec c Hin).
      unfold status_of in Hexec. rewrite <- Hc, Ht in Hexec. simpl in Hexec.
      congruence. }
    split; [rewrite Hco, app_assoc; reflexivity |]. split; [| split].
    + apply Forall_app. split; [exact Hnew |]. constructor; [| constructor].
      exists t, a. auto.
    + rewrite fmap_app. apply NoDup_app. split; [exact Hdup |]. split.
      * intros x Hx Hx'. apply list_elem_of_singleton in Hx'. subst x.
        exact (Hfresh Hx).
      * apply NoDup_singleton.
    + apply Forall_app. split.
      * rewrite Forall_forall in Hexec |- *. intros c Hc.
        unfold status_of in *.
        cbn [task_objects with_coroutines with_task_objects].
        rewrite list_lookup_insert_ne; [exact (Hexec c Hc) |].
        intros Heq. apply Hfresh. rewrite Heq.
        apply list_elem_of_fmap. eauto.
      * constructor; [| constructor]. unfold status_of.
        cbn [task_objects with_coroutines with_task_objects sup_task supervisor_of].
        rewrite list_lookup_insert_eq by (eapply lookup_lt_Some; exact Ht).
        reflexivity.
Qed.

(** The scan over [items], started anywhere in a pass over [w0]. *)
Lemma pass_loop (w0 : World) (now : datetime) (items : list (string * ref)) :
  forall w,
    pass_invariant w0 now w ->
    let result := for_each items (fun item => dispatch_if_due now item.2) w in
    result.1 = Returns tt
    /\ pass_invariant w0 now result.2
    /\ forall r t,
         task_objects w0 !! r = Some t ->
         (r ∈ items.*2 ->
          task_objects result.2 !! r = Some (dispatch_of w0 now t))
         /\ (r ∉ items.*2 ->
             task_objects result.2 !! r = task_objects w !! r).
Proof.
  induction items as [| item items IH]; intros w Hinv; cbv zeta.
  - simpl. split; [reflexivity |]. split; [exact Hinv |].
    intros r t _. split; [| reflexivity].
    intros Hin. inversion Hin.
  - pose proof (dispatch_if_due_pass w0 now item.2 w Hinv) as Hinv'.
    assert (Hlook := fun r => dispatch_if_due_lookup now item.2 r w).
    pose proof (dispatch_if_due_exact now item.2 w) as Hex.
    cbn [for_each]. unfold mbind, M_bind.
    destruct (dispatch_if_due now item.2 w) as [res w1].
    injection Hex as -> _. cbn [fst snd] in *.
    destruct (IH w1 Hinv') as (Hret & Hfinal & Hres).
    split; [exact Hret |]. split; [exact Hfinal |].
    intros r t Ht. destruct (Hres r t Ht) as [Hin Hout].
    destruct Hinv as ((Hao & Hag & _) & Hobj & _).
    rewrite fmap_cons. split.
    + intros Hr. destruct (decide (r ∈ items.*2)) as [Htail | Htail];
        [exact (Hin Htail) |].
      apply elem_of_cons in Hr. destruct Hr as [-> | Hr]; [| contradiction].
      rewrite (Hout Htail), Hlook, decide_True by reflexivity.
      destruct (Hobj item.2) as [-> | (t0 & Ht0 & ->)].
      * rewrite Ht. simpl. f_equal. apply dispatch_of_same; assumption.
      * simpl. f_equal. rewrite Ht in Ht0. injection Ht0 as <-.
        rewrite (dispatch_of_same w0 w) by assumption.
        apply dispatch_of_idempotent.
    + intros Hr. apply not_elem_of_cons in Hr. destruct Hr as [Hne Htail].
      rewrite (Hout Htail), Hlook, decide_False by exact Hne. reflexivity.
Qed.

Lemma process_pending_tasks_exact (now : datetime) (w : World) :
  (_process_pending_tasks now w).1 = Returns tt
  /\ pass_invariant w now (_process_pending_tasks now w).2
  /\ forall r t,
       task_objects w !! r = Some t ->
       task_objects (_process_pending_tasks now w).2 !! r
       = Some (if decide (r ∈ dict_values (tasks w))
               then dispatch_of w now t else t).
Proof.
  unfold _process_pending_tasks. unfold_monad.
  destruct (pass_loop w now (dict_items (tasks w)) w (pass_invariant_refl w now))
    as (Hret & Hinv & Hres).
  split; [exact Hret |]. split; [exact Hinv |].
  intros r t Ht. destruct (Hres r t Ht) as [Hin Hout].
  unfold dict_values, dict_items in *.
  destruct (decide (r ∈ (tasks w).*2)) as [H | H].
  - exact (Hin H).
  - rewrite (Hout H). exact Ht.
Qed.

Lemma select_by_type (w : World) (t t' : Task) :
  task_type t = task_type t' ->
  _select_optimal_agent w t = _select_optimal_agent w t'.
Proof.
  intros Htype. unfold _select_optimal_agent, eligible_agents, eligible.
  rewrite Htype. reflexivity.
Qed.




(** X8: the tasks of one type that a single pass dispatches all go to the
    same agent: the selection is made in the world as it was when the pass
    began, and nothing spreads a burst of due tasks over the eligible
    agents. *)
Theorem burst_goes_to_one_agent (now : datetime) (w : World) (r1 r2 : ref)
    (t1 t2 : Task) :
  task_objects w !! r1 = Some t1 -> task_objects w !! r2 = Some t2 ->
  status t1 = pending -> status t2 = pending ->
  task_type t1 = task_type t2 ->
  let w' := (_process_pending_tasks now w).2 in
  status_of w' r1 = Some executing -> status_of w' r2 = Some executing ->
  assigned_agent <$> task_objects w' !! r1
  = assigned_agent <$> task_objects w' !! r2.
Proof.
  intros Ht1 Ht2 Hp1 Hp2 Htype. cbv zeta. unfold status_of.
  destruct (process_pending_tasks_exact now w) as (_ & _ & Hres).
  rewrite (Hres r1 t1 Ht1), (Hres r2 t2 Ht2). simpl.
  assert (Hdone : forall r t, status t = pending ->
            status (if decide (r ∈ dict_values (tasks w))
                    then dispatch_of w now t else t) = executing ->
            exists g a, selected_for w now t = Some (g, a)
              /\ (if decide (r ∈ dict_values (tasks w))
                  then dispatch_of w now t else t) = assign a t).
  { intros r t Hp Hex. destruct (decide (r ∈ dict_values (tasks w)));
      [| congruence].
    unfold dispatch_of in *.
    destruct (selected_for w now t) as [[g a] |]; [eauto | congruence]. }
  intros H1 H2. injection H1 as H1. injection H2 as H2.
  destruct (Hdone r1 t1 Hp1 H1) as (g1 & a1 & Hs1 & ->).
  destruct (Hdone r2 t2 Hp2 H2) as (g2 & a2 & Hs2 & ->).
  apply selected_for_Some in Hs1, Hs2.
  destruct Hs1 as (_ & _ & Hsel1 & Ha1), Hs2 as (_ & _ & Hsel2 & Ha2).
  rewrite (select_by_type w t1 t2 Htype) in Hsel1.
  assert (g1 = g2) as -> by congruence.
  assert (a1 = a2) as -> by congruence.
  reflexivity.
Qed.

Lemma burst_goes_to_one_agent_witness :
  let spare :=
    {| agent_id := "spare_distributor"; agent_type := "TOKEN_MANAGEMENT";
       priority := 1; capabilities := ["TOKEN_DISTRIBUTION"];
       max_gas := 2000000; success_threshold := 85; retry_attempts := 3 |} in
  let w :=
    run [RegisterAgent token_agent_config 0; RegisterAgent spare 0;
         NewTask (token_task 0); ScheduleTask 0%nat;
         NewTask (set_assigned_agent None
                    {| task_id := "distribute_002";
                       task_type := "TOKEN_DISTRIBUTION";
                       target_contract := "0x..."; execution_time := 1;
                       data := []; task_priority := 1; is_recurring := false;
                       recurring_interval := None; assigned_agent := None;
                       status := pending; retry_count := 0 |});
         ScheduleTask 1%nat]
      AIOrchestrator__init__ in
  assigned_agent <$> task_objects (_process_pending_tasks 5 w).2 !! 0%nat
  = assigned_agent <$> task_objects (_process_pending_tasks 5 w).2 !! 1%nat.
Proof.
  cbv zeta.
  refine (burst_goes_to_one_agent 5 _ 0%nat 1%nat _ _ _ _ _ _ _ _ _);
    reflexivity.
Defined.

(** ** An iteration of the orchestration loop, exactly *)

Lemma cycle_exact (now : datetime) (w : World) :
  exists evs,
    Forall is_warning evs
    /\ cycle now w
       = (Returns tt,
          if is_running w
          then emit (evs ++ [Sleep 10]) (_process_pending_tasks now w).2
          else w).
Proof.
  unfold cycle. unfold_monad. destruct (is_running w).
  - destruct (process_pending_tasks_exact now w) as (Hret & _).
    destruct (_process_pending_tasks now w) as [[[] | e] w1];
      cbn [fst snd] in *; [| discriminate].
    unfold _process_workflows. unfold_monad.
    destruct (monitor_agents_emits now w1) as (evs & -> & Hevs).
    exists evs. split; [exact Hevs |]. rewrite emit_emit. reflexivity.
  - exists []. split; [constructor | reflexivity].
Qed.


(** ** Tasks that are not due *)

Lemma cycle_not_due (now : datetime) (w : World) (r : ref) (t : Task) :
  task_objects w !! r = Some t -> now < execution_time t ->
  task_objects (cycle now w).2 !! r = Some t.
Proof.
  intros Ht Hfuture. destruct (cycle_exact now w) as (evs & _ & ->).
  cbn [snd]. destruct (is_running w); [| exact Ht].
  cbn [task_objects emit].
  destruct (process_pending_tasks_exact now w) as (_ & _ & Hres).
  rewrite (Hres r t Ht). f_equal.
  destruct (decide (r ∈ dict_values (tasks w))); [| reflexivity].
  unfold dispatch_of, selected_for.
  destruct (Z.leb_spec (execution_time t) now); [lia |].
  rewrite andb_false_r. reflexivity.
Qed.

Lemma step_pending_unless_cycle (a : Action) (w : World) (r : ref) (t : Task) :
  supervision_invariant w ->
  task_objects w !! r = Some t -> status t = pending ->
  ~ is_cycle a ->
  task_objects (step a w) !! r = Some t.
Proof.
  intros Hinv Ht Hp Hnot. apply step_starved; auto.
  intros now ->. exfalso. apply Hnot. exists now. reflexivity.
Qed.

Lemma run_not_due (acts : list Action) (w : World) (r : ref) (t : Task) :
  supervision_invariant w ->
  task_objects w !! r = Some t -> status t = pending ->
  (forall now, Cycle now ∈ acts -> now < execution_time t) ->
  task_objects (run acts w) !! r = Some t.
Proof.
  revert w. induction acts as [| a acts IH]; intros w Hinv Ht Hp Hfuture;
    [exact Ht |].
  cbn [run]. apply IH.
  - apply step_invariant. exact Hinv.
  - destruct a as [| | | | | now | |];
      try (apply step_pending_unless_cycle; auto;
           intros [now' Hc]; discriminate Hc).
    apply cycle_not_due; [exact Ht |]. apply Hfuture. constructor.
  - exact Hp.
  - intros now Hin. apply Hfuture. constructor. exact Hin.
Qed.

(** X10: a pending task is never dispatched before its execution time: over
    any sequence of steps whose loop iterations all read a clock earlier
    than the task's [execution_time], the task object stays as it is. *)
Theorem future_task_waits (w : World) (r : ref) (t : Task)
    (acts : list Action) :
  reachable w ->
  task_objects w !! r = Some t -> status t = pending ->
  (forall now, Cycle now ∈ acts -> now < execution_time t) ->
  task_objects (run acts w) !! r = Some t.
Proof.
  intros Hreach. apply run_not_due, reachable_invariant, Hreach.
Qed.

Lemma future_task_waits_witness :
  let w :=
    run [RegisterAgent token_agent_config 0; NewTask (token_task 100);
         ScheduleTask 0%nat; Start]
      AIOrchestrator__init__ in
  task_objects (run [Cycle 10; Cycle 20; Cycle 99] w) !! 0%nat
  = Some (token_task 100).
Proof.
  refine (future_task_waits _ 0%nat (token_task 100)
            [Cycle 10; Cycle 20; Cycle 99] _ _ _ _).
  - eexists. reflexivity.
  - reflexivity.
  - reflexivity.
  - intros now Hin. simpl.
    repeat (apply elem_of_cons in Hin; destruct Hin as [Hin | Hin];
            [injection Hin as ->; lia |]).
    inversion Hin.
Defined.

(** ** An agent with a negative retry ceiling *)

(** X11: an agent whose [retry_attempts] is negative executes nothing:
    [range(max_retries + 1)] is empty, so a task the scheduler gives to it
    is marked [executing] and its supervisor returns at once without an
    attempt; the task then stays [executing] whatever happens next. *)
Theorem negative_retries_strand_task (now : datetime) (w : World) (r agent : ref)
    (t : Task) (a : AIAgent) (acts : list Action) :
  reachable w ->
  task_objects w !! r = Some t -> r ∈ dict_values (tasks w) ->
  status t = pending -> execution_time t <= now ->
  _select_optimal_agent w t = Returns (Some agent) ->
  agent_objects w !! agent = Some a ->
  retry_attempts (config a) < 0 ->
  (forall env, _execute_task_safely a (assign a t) env = (a, assign a t, []))
  /\ status_of (run acts (_process_pending_tasks now w).2) r = Some executing.
Proof.
  intros Hreach Ht Hreg Hp Hdue Hsel Ha Hneg. split.
  { intros env. unfold _execute_task_safely, range.
    rewrite seqZ_nil by lia. reflexivity. }
  pose proof (reachable_invariant w Hreach) as Hinv.
  destruct (process_pending_tasks_effect now w Hinv) as (_ & Hinv' & _).
  destruct (process_pending_tasks_exact now w)
    as (_ & (_ & _ & new & Hco & Hnew & _) & Hres).
  pose proof (proj2 (selected_for_Some w now t agent a)
                (conj Hp (conj Hdue (conj Hsel Ha)))) as Hfor.
  assert (Hobj : task_objects (_process_pending_tasks now w).2 !! r
                 = Some (assign a t)).
  { rewrite (Hres r t Ht), decide_True by exact Hreg.
    unfold dispatch_of. rewrite Hfor. reflexivity. }
  assert (Hnot : ~ supervised (_process_pending_tasks now w).2 r).
  { intros (c & Hin & Hr & Hlive).
    rewrite Hco in Hin. apply elem_of_app in Hin. destruct Hin as [Hin | Hin].
    - assert (Hsup : supervised w r) by (exists c; auto).
      destruct (supervised_unsettled w r pending Hinv Hsup); try congruence.
      unfold status_of. rewrite Ht. simpl. congruence.
    - rewrite Forall_forall in Hnew.
      destruct (Hnew c Hin) as (t' & a' & Ht' & Hfor' & Hc).
      rewrite Hr, Ht in Ht'. injection Ht' as <-.
      rewrite Hfor in Hfor'. injection Hfor' as _ <-.
      apply Hlive. rewrite Hc. unfold supervisor_of, range. simpl.
      apply seqZ_nil. lia. }
  unfold status_of.
  rewrite (run_unsupervised acts _ r (assign a t) Hinv' Hnot Hobj);
    [reflexivity | discriminate].
Qed.

Lemma negative_retries_strand_task_witness :
  let idle :=
    {| agent_id := "idle"; agent_type := "TOKEN_MANAGEMENT"; priority := 1;
       capabilities := ["TOKEN_DISTRIBUTION"]; max_gas := 2000000;
       success_threshold := 85; retry_attempts := -1 |} in
  let w :=
    run [RegisterAgent idle 0; NewTask (token_task 0); ScheduleTask 0%nat]
      AIOrchestrator__init__ in
  status_of
    (run [Start; Cycle 7; Resume 0%nat (Returns true) 8]
       (_process_pending_tasks 5 w).2) 0%nat
  = Some executing.
Proof.
  cbv zeta.
  refine (proj2 (negative_retries_strand_task 5 _ 0%nat 0%nat (token_task 0)
                   _ _ _ _ _ _ _ _ _ _)).
  - eexists. reflexivity.
  - reflexivity.
  - repeat constructor.
  - reflexivity.
  - simpl. lia.
  - reflexivity.
  - reflexivity.
  - simpl. lia.
Defined.

(** ** What the steps do to the objects *)

(** A resumption, as a function of the world. *)
Lemma resume_exact (i : nat) (exec : Outcome bool) (now : datetime) (w : World) :
  resume i exec now w = w
  \/ exists c attempt rest a t,
       coroutines w !! i = Some c
       /\ sup_attempts c = attempt :: rest
       /\ agent_objects w !! sup_agent c = Some a
       /\ task_objects w !! sup_task c = Some t
       /\ let result := attempt_body (sup_max_retries c) attempt a t exec now in
          resume i exec now w
          = emit result.1.2
              (with_coroutines
                 (fun cs =>
                    <[i := set_attempts
                             (match result.2 with Break => [] | Continue => rest end)
                             c]> cs)
                 (with_task_objects
                    (fun objects => <[sup_task c := result.1.1.2]> objects)
                    (with_agent_objects
                       (fun objects => <[sup_agent c := result.1.1.1]> objects) w))).
Proof.
  unfold resume.
  destruct (coroutines w !! i) as [c |] eqn:Hc; [| left; reflexivity].
  destruct (sup_attempts c) as [| attempt rest] eqn:Hattempts;
    [left; reflexivity |].
  destruct (agent_objects w !! sup_agent c) as [a |] eqn:Ha;
    [| left; reflexivity].
  destruct (task_objects w !! sup_task c) as [t |] eqn:Ht;
    [| left; reflexivity].
  right. exists c, attempt, rest, a, t.
  do 4 (split; [first [assumption | reflexivity] |]). cbv zeta.
  destruct (attempt_body (sup_max_retries c) attempt a t exec now)
    as [[[a' t'] evs] control].
  reflexivity.
Qed.

Lemma attempt_body_executes (max_retries attempt : Z) (agent : AIAgent)
    (task : Task) (exec : Outcome bool) (now : datetime) :
  (attempt_body max_retries attempt agent task exec now).1.1.1
  = (execute_task agent task exec now).1.1.1
  /\ (attempt_body max_retries attempt agent task exec now).1.1.2
     = set_status (if is_success exec then completed else failed) task.
Proof.
  unfold attempt_body.
  destruct exec as [[] | e]; simpl; try destruct (attempt <? max_retries);
    auto.
Qed.

Lemma execute_task_sound (self : AIAgent) (task : Task)
    (exec : Outcome bool) (now : datetime) :
  sound_agent self -> sound_agent (execute_task self task exec now).1.1.1.
Proof.
  intros (Hact & Hn & Hr). split; [| split].
  - destruct (attempt_body_agent 0 0 self task exec now) as (_ & _ & Ha).
    destruct (attempt_body_executes 0 0 self task exec now) as [<- _].
    rewrite Ha. exact Hact.
  - rewrite execute_task_counter. destruct (is_success exec); lia.
  - apply execute_task_range; assumption.
Qed.

(** The calls from outside leave the agent objects alone, [register_agent]
    adding a new one. *)
Lemma external_step_agents (a : Action) (w : World) :
  match a with
  | Cycle _ | Resume _ _ _ => True
  | RegisterAgent cfg now =>
      agent_objects (step a w) = agent_objects w ++ [AIAgent__init__ cfg now]
  | _ => agent_objects (step a w) = agent_objects w
  end.
Proof.
  destruct a as [task | cfg now | task | wid wseq | | now | i exec now |];
    try exact I; cbn [step]; try reflexivity.
  unfold schedule_task. unfold_monad.
  destruct (task_objects w !! task); reflexivity.
Qed.

Lemma cycle_agents (now : datetime) (w : World) :
  agent_objects (cycle now w).2 = agent_objects w
  /\ agents (cycle now w).2 = agents w.
Proof.
  destruct (cycle_exact now w) as (evs & _ & ->). cbn [snd].
  destruct (is_running w); [| auto].
  destruct (process_pending_tasks_exact now w)
    as (_ & ((Hao & Hag & _) & _) & _).
  cbn [agent_objects agents emit]. auto.
Qed.

(** Every step takes an agent object to a later state of the same agent. *)
Lemma step_agent (act : Action) (w : World) (g : ref) (a : AIAgent) :
  agent_objects w !! g = Some a ->
  exists a',
    agent_objects (step act w) !! g = Some a'
    /\ agent_history a a'
    /\ (sound_agent a -> sound_agent a').
Proof.
  intros Hg. pose proof (external_step_agents act w) as Hext.
  assert (Hsame : forall objects : list AIAgent,
            objects !! g = Some a ->
            exists a', objects !! g = Some a'
                       /\ agent_history a a' /\ (sound_agent a -> sound_agent a')).
  { intros objects H. exists a. split; [exact H |]. split; [| auto].
    unfold agent_history. auto with lia. }
  destruct act as [task | cfg now | task | wid wseq | | now | i exec now |];
    try (apply Hsame; rewrite Hext; exact Hg).
  - apply Hsame. rewrite Hext. apply lookup_app_l_Some. exact Hg.
  - apply Hsame. cbn [step]. rewrite (proj1 (cycle_agents now w)). exact Hg.
  - cbn [step] in *.
    destruct (resume_exact i exec now w)
      as [-> | (c & attempt & rest & a0 & t & Hc & Hatt & Ha0 & Ht & ->)];
      [apply Hsame; exact Hg |].
    cbn [agent_objects emit with_coroutines with_task_objects with_agent_objects].
    destruct (decide (sup_agent c = g)) as [Heq | Hne].
    + rewrite Heq in *. rewrite Hg in Ha0. injection Ha0 as <-.
      rewrite list_lookup_insert_eq by (eapply lookup_lt_Some; exact Hg).
      eexists. split; [reflexivity |].
      destruct (attempt_body_agent (sup_max_retries c) attempt a t exec now)
        as (Hn & Hcfg & Hact).
      split.
      * unfold agent_history. repeat split; try assumption.
        rewrite Hn. destruct (is_success exec); lia.
      * destruct (attempt_body_executes (sup_max_retries c) attempt a t exec now)
          as [-> _].
        apply execute_task_sound.
    + apply Hsame. rewrite list_lookup_insert_ne by exact Hne. exact Hg.
Qed.

Lemma agent_history_trans (a a' a'' : AIAgent) :
  agent_history a a' -> agent_history a' a'' -> agent_history a a''.
Proof.
  unfold agent_history. intros (H1 & H2 & H3) (H1' & H2' & H3').
  repeat split; [congruence | congruence | lia].
Qed.

Lemma run_agent (acts : list Action) (w : World) (g : ref) (a : AIAgent) :
  agent_objects w !! g = Some a ->
  exists a',
    agent_objects (run acts w) !! g = Some a'
    /\ agent_history a a'
    /\ (sound_agent a -> sound_agent a').
Proof.
  revert w a. induction acts as [| act acts IH]; intros w a Hg.
  - exists a. split; [exact Hg |]. split; [| auto].
    unfold agent_history. auto with lia.
  - destruct (step_agent act w g a Hg) as (a1 & Hg1 & Hh1 & Hs1).
    destruct (IH (step act w) a1 Hg1) as (a2 & Hg2 & Hh2 & Hs2).
    exists a2. split; [exact Hg2 |].
    split; [exact (agent_history_trans a a1 a2 Hh1 Hh2) | auto].
Qed.

(** X12: over any sequence of steps an agent object keeps its configuration
    and its [is_active] flag, and its [executed_tasks] never decreases:
    nothing reconfigures, deactivates or resets an agent that exists. *)
Theorem agent_keeps_identity (acts : list Action) (w : World) (g : ref)
    (a : AIAgent) :
  agent_objects w !! g = Some a ->
  exists a',
    agent_objects (run acts w) !! g = Some a'
    /\ config a' = config a /\ is_active a' = is_active a
    /\ executed_tasks a <= executed_tasks a'.
Proof.
  intros Hg. destruct (run_agent acts w g a Hg) as (a' & Hg' & Hh & _).
  exists a'. split; [exact Hg' | exact Hh].
Qed.

Lemma agent_keeps_identity_witness :
  let w :=
    run [RegisterAgent token_agent_config 0; NewTask (token_task 0);
         ScheduleTask 0%nat; Start; Cycle 1]
      AIOrchestrator__init__ in
  exists a',
    agent_objects
      (run [Resume 0%nat (Returns false) 2; RegisterAgent token_agent_config 3;
            Resume 0%nat (Returns true) 4] w) !! 0%nat = Some a'
    /\ config a' = token_agent_config /\ is_active a' = true
    /\ 0 <= executed_tasks a'.
Proof.
  cbv zeta.
  refine (agent_keeps_identity _ _ 0%nat (AIAgent__init__ token_agent_config 0) _).
  reflexivity.
Defined.

(** The agent objects [acts] take the start state to are sound. *)
Lemma run_agents_sound (acts : list Action) :
  forall w,
    Forall sound_agent (agent_objects w) ->
    Forall sound_agent (agent_objects (run acts w)).
Proof.
  induction acts as [| act acts IH]; intros w Hw; [exact Hw |].
  cbn [run]. apply IH. rewrite Forall_lookup in Hw |- *.
  intros g a' Hg'.
  destruct (agent_objects w !! g) as [a |] eqn:Hg.
  - destruct (step_agent act w g a Hg) as (a1 & Hg1 & _ & Hs).
    rewrite Hg1 in Hg'. injection Hg' as <-. apply Hs. exact (Hw g a Hg).
  - pose proof (external_step_agents act w) as Hext.
    destruct act as [task | cfg now | task | wid wseq | | now | i exec now |];
      try (rewrite Hext in Hg'; congruence).
    + rewrite Hext in Hg'. apply lookup_app_Some in Hg'.
      destruct Hg' as [Hg' | [_ Hg']]; [congruence |].
      apply list_lookup_singleton_Some in Hg'. destruct Hg' as [_ <-].
      split; [reflexivity |]. split; [simpl; lia | simpl; split; lra].
    + cbn [step] in Hg'. rewrite (proj1 (cycle_agents now w)) in Hg'.
      congruence.
    + cbn [step] in Hg'.
      destruct (resume_exact i exec now w)
        as [Hr | (c & attempt & rest & a0 & t & _ & _ & Ha0 & _ & Hr)];
        rewrite Hr in Hg'; [congruence |].
      cbn [agent_objects emit with_coroutines with_task_objects
           with_agent_objects] in Hg'.
      apply lookup_lt_Some in Hg'. rewrite length_insert in Hg'.
      apply lookup_ge_None in Hg. lia.
Qed.

(** X13: in every world the orchestrator can reach, every agent object is
    active, has a counter that is not negative and a success rate in
    [0, 100]: no step deactivates an agent or breaks its statistics. *)
Theorem reachable_agents_sound (w : World) (g : ref) (a : AIAgent) :
  reachable w -> agent_objects w !! g = Some a ->
  is_active a = true /\ 0 <= executed_tasks a
  /\ in_percent_range (success_rate a).
Proof.
  intros [acts ->] Hg.
  pose proof (run_agents_sound acts AIOrchestrator__init__
                (Forall_nil_2 sound_agent)) as H.
  rewrite Forall_lookup in H. exact (H g a Hg).
Qed.

Lemma reachable_agents_sound_witness :
  exists a,
    agent_objects
      (run [RegisterAgent token_agent_config 0; NewTask (token_task 0);
            ScheduleTask 0%nat; Start; Cycle 1;
            Resume 0%nat (Raises "timeout") 2; Resume 0%nat (Returns true) 4]
         AIOrchestrator__init__) !! 0%nat = Some a
    /\ is_active a = true /\ 0 <= executed_tasks a
    /\ in_percent_range (success_rate a).
Proof.
  eexists. split; [reflexivity |].
  refine (reachable_agents_sound
            (run [RegisterAgent token_agent_config 0; NewTask (token_task 0);
                  ScheduleTask 0%nat; Start; Cycle 1;
                  Resume 0%nat (Raises "timeout") 2;
                  Resume 0%nat (Returns true) 4]
               AIOrchestrator__init__) 0%nat _ _ _).
  - eexists. reflexivity.
  - reflexivity.
Defined.

(** ** What the steps do to a task object *)

Lemma task_history_refl (t : Task) : task_history t t.
Proof. unfold task_history, same_request. auto 15. Qed.

Lemma task_history_trans (t t' t'' : Task) :
  task_history t t' -> task_history t' t'' -> task_history t t''.
Proof.
  unfold task_history, same_request.
  intros ((A1 & A2 & A3 & A4 & A5 & A6 & A7 & A8 & A9) & Ha)
         ((B1 & B2 & B3 & B4 & B5 & B6 & B7 & B8 & B9) & Hb).
  split; [repeat split; congruence |].
  intros Hp. destruct (Ha Hp) as [Hp' Hag]. destruct (Hb Hp') as [Hp'' Hag'].
  split; [exact Hp'' | congruence].
Qed.

Lemma dispatch_of_settled (w : World) (now : datetime) (t : Task) :
  status t <> pending -> dispatch_of w now t = t.
Proof.
  intros Hp. unfold dispatch_of, selected_for.
  rewrite bool_decide_eq_false_2 by exact Hp. reflexivity.
Qed.

Lemma dispatch_of_history (w : World) (now : datetime) (t : Task) :
  task_history t (dispatch_of w now t).
Proof.
  destruct (decide (status t = pending)) as [Hp | Hp].
  - unfold dispatch_of. destruct (selected_for w now t) as [[g a] |];
      [| apply task_history_refl].
    split; [unfold same_request; simpl; auto 15 | contradiction].
  - rewrite dispatch_of_settled by exact Hp. apply task_history_refl.
Qed.

Lemma cycle_task (now : datetime) (w : World) (r : ref) (t : Task) :
  task_objects w !! r = Some t ->
  task_objects (cycle now w).2 !! r = Some t
  \/ task_objects (cycle now w).2 !! r = Some (dispatch_of w now t).
Proof.
  intros Ht. destruct (cycle_exact now w) as (evs & _ & ->). cbn [snd].
  destruct (is_running w); [| left; exact Ht].
  destruct (process_pending_tasks_exact now w) as (_ & _ & Hres).
  cbn [task_objects emit]. rewrite (Hres r t Ht).
  destruct (decide (r ∈ dict_values (tasks w))); auto.
Qed.

Lemma step_task (act : Action) (w : World) (r : ref) (t : Task) :
  task_objects w !! r = Some t ->
  exists t', task_objects (step act w) !! r = Some t' /\ task_history t t'.
Proof.
  intros Ht. pose proof (external_step act w) as Hext.
  destruct act as [task | cfg now | task | wid wseq | | now | i exec now |].
  6: { cbn [step]. destruct (cycle_task now w r t Ht) as [H | H];
         rewrite H; eauto using task_history_refl, dispatch_of_history. }
  6: { cbn [step].
       destruct (resume_exact i exec now w)
         as [-> | (c & attempt & rest & a0 & t0 & Hc & Hatt & Ha0 & Ht0 & ->)];
         [eauto using task_history_refl |].
       cbn [task_objects emit with_coroutines with_task_objects
            with_agent_objects].
       destruct (decide (sup_task c = r)) as [Heq | Hne].
       - rewrite Heq in *. rewrite Ht in Ht0. injection Ht0 as <-.
         rewrite list_lookup_insert_eq by (eapply lookup_lt_Some; exact Ht).
         eexists. split; [reflexivity |].
         destruct (attempt_body_executes (sup_max_retries c) attempt a0 t exec now)
           as [_ ->].
         split; [unfold same_request; simpl; auto 15 |].
         intros _. simpl. split; [| reflexivity].
         destruct (is_success exec); discriminate.
       - rewrite list_lookup_insert_ne by exact Hne.
         eauto using task_history_refl. }
  all: destruct Hext as [_ [created Hobj]]; exists t;
    split; [rewrite Hobj; apply lookup_app_l_Some; exact Ht
           | apply task_history_refl].
Qed.

(** X14: over any sequence of steps a task object keeps what it was
    submitted with: identifier, type, target, execution time, payload,
    priority, recurrence and [retry_count], which no retry advances.  Only
    its status and its assigned agent are ever assigned, and once it is past
    [pending] it never returns to it and keeps the agent it was given. *)
Theorem task_keeps_request (acts : list Action) (w : World) (r : ref)
    (t : Task) :
  task_objects w !! r = Some t ->
  exists t',
    task_objects (run acts w) !! r = Some t'
    /\ same_request t t'
    /\ (status t <> pending ->
        status t' <> pending /\ assigned_agent t' = assigned_agent t).
Proof.
  revert w t. induction acts as [| act acts IH]; intros w t Ht.
  - exists t. split; [exact Ht | apply task_history_refl].
  - destruct (step_task act w r t Ht) as (t1 & Ht1 & H1).
    destruct (IH (step act w) t1 Ht1) as (t2 & Ht2 & H2).
    exists t2. split; [exact Ht2 |].
    exact (task_history_trans t t1 t2 H1 H2).
Qed.

Lemma task_keeps_request_witness :
  let w :=
    run [RegisterAgent token_agent_config 0; NewTask (token_task 0);
         ScheduleTask 0%nat; Start]
      AIOrchestrator__init__ in
  exists t',
    task_objects
      (run [Cycle 1; Resume 0%nat (Returns false) 2;
            Resume 0%nat (Returns false) 4] w) !! 0%nat = Some t'
    /\ same_request (token_task 0) t'
    /\ (status (token_task 0) <> pending ->
        status t' <> pending
        /\ assigned_agent t' = assigned_agent (token_task 0)).
Proof.
  cbv zeta. refine (task_keeps_request _ _ 0%nat (token_task 0) _).
  reflexivity.
Defined.

(** ** One supervisor for a task *)

Lemma dispatch_record_external (w w' : World) (tasks' : list Task)
    (agents' : list AIAgent) :
  coroutines w' = coroutines w ->
  task_objects w' = task_objects w ++ tasks' ->
  agent_objects w' = agent_objects w ++ agents' ->
  dispatch_record w -> dispatch_record w'.
Proof.
  intros Hco Ht Ha [Hrec Hdup]. unfold dispatch_record.
  rewrite Hco, Ht, Ha. split; [| exact Hdup].
  intros i c Hc. destruct (Hrec i c Hc) as (t & a & H1 & H2 & H3 & H4 & H5).
  exists t, a. repeat split; auto using lookup_app_l_Some.
Qed.

Lemma dispatch_record_pass (now : datetime) (w : World) :
  dispatch_record w -> dispatch_record (_process_pending_tasks now w).2.
Proof.
  intros [Hrec Hdup].
  destruct (process_pending_tasks_exact now w)
    as (_ & ((Hao & _) & Hobj & new & Hco & Hnew & Hnodup & Hexec) & _).
  set (w1 := (_process_pending_tasks now w).2) in *.
  rewrite Forall_forall in Hnew, Hexec.
  split.
  - intros i c Hc. rewrite Hco in Hc. apply lookup_app_Some in Hc.
    destruct Hc as [Hc | [_ Hc]].
    + destruct (Hrec i c Hc) as (t & a & Ht & Hp & Ha & Has & Hmax).
      exists t, a. rewrite Hao. repeat split; auto.
      destruct (Hobj (sup_task c)) as [-> | (t0 & Ht0 & ->)]; [exact Ht |].
      rewrite Ht in Ht0. injection Ht0 as <-.
      rewrite dispatch_of_settled by exact Hp. reflexivity.
    + apply list_elem_of_lookup_2 in Hc.
      destruct (Hnew c Hc) as (t & a & Ht & Hfor & Hcdef).
      pose proof (Hexec c Hc) as Hex. unfold status_of in Hex.
      pose proof (proj1 (selected_for_Some w now t _ a) Hfor)
        as (Hp & _ & _ & Ha).
      exists (assign a t), a. rewrite Hao.
      assert (Hone : task_objects w1 !! sup_task c = Some (assign a t)).
      { destruct (Hobj (sup_task c)) as [Hsame | (t0 & Ht0 & Hd)].
        - rewrite Hsame, Ht in Hex. simpl in Hex. congruence.
        - rewrite Hd. rewrite Ht in Ht0. injection Ht0 as <-.
          unfold dispatch_of. rewrite Hfor. reflexivity. }
      split; [exact Hone |]. split; [discriminate |].
      split; [exact Ha |]. split; [reflexivity |].
      rewrite Hcdef. reflexivity.
  - rewrite Hco, fmap_app. apply NoDup_app. split; [exact Hdup |].
    split; [| exact Hnodup].
    intros r Hold Hnew'. apply list_elem_of_fmap in Hold, Hnew'.
    destruct Hold as (c & -> & Hc), Hnew' as (c' & Heq & Hc').
    apply list_elem_of_lookup in Hc. destruct Hc as [i Hc].
    destruct (Hrec i c Hc) as (t & a & Ht & Hp & _).
    destruct (Hnew c' Hc') as (t' & a' & Ht' & Hfor & _).
    apply selected_for_Some in Hfor. destruct Hfor as (Hp' & _).
    rewrite <- Heq, Ht in Ht'. injection Ht' as <-. contradiction.
Qed.

Lemma dispatch_record_resume (i : nat) (exec : Outcome bool) (now : datetime)
    (w : World) :
  dispatch_record w -> dispatch_record (resume i exec now w).
Proof.
  intros [Hrec Hdup].
  destruct (resume_exact i exec now w)
    as [-> | (c & attempt & rest & a0 & t0 & Hc & Hatt & Ha0 & Ht0 & ->)];
    [split; assumption |].
  destruct (attempt_body_executes (sup_max_retries c) attempt a0 t0 exec now)
    as [_ Htask].
  destruct (attempt_body_agent (sup_max_retries c) attempt a0 t0 exec now)
    as (_ & Hcfg & _).
  set (result := attempt_body (sup_max_retries c) attempt a0 t0 exec now) in *.
  split; cbn [coroutines task_objects agent_objects emit with_coroutines
              with_task_objects with_agent_objects].
  - intros j cj Hj.
    assert (Hold : exists cj0, coroutines w !! j = Some cj0
                     /\ sup_task cj = sup_task cj0
                     /\ sup_agent cj = sup_agent cj0
                     /\ sup_max_retries cj = sup_max_retries cj0).
    { apply list_lookup_insert_Some in Hj.
      destruct Hj as [(<- & <- & _) | [_ Hj]]; eauto 10. }
    destruct Hold as (cj0 & Hj0 & -> & -> & ->).
    destruct (Hrec j cj0 Hj0) as (t & a & Ht & Hp & Ha & Has & Hmax).
    assert (Htask' : exists t',
               <[sup_task c := result.1.1.2]> (task_objects w) !! sup_task cj0
               = Some t'
               /\ status t' <> pending /\ assigned_agent t' = assigned_agent t).
    { destruct (decide (sup_task c = sup_task cj0)) as [Heq | Hne].
      - rewrite <- Heq in *. rewrite Ht0 in Ht. injection Ht as <-.
        rewrite list_lookup_insert_eq by (eapply lookup_lt_Some; exact Ht0).
        eexists. split; [reflexivity |]. rewrite Htask. simpl.
        split; [destruct (is_success exec); discriminate | reflexivity].
      - rewrite list_lookup_insert_ne by exact Hne. eauto. }
    assert (Hagent' : exists a',
               <[sup_agent c := result.1.1.1]> (agent_objects w) !! sup_agent cj0
               = Some a'
               /\ config a' = config a).
    { destruct (decide (sup_agent c = sup_agent cj0)) as [Heq | Hne].
      - rewrite <- Heq in *. rewrite Ha0 in Ha. injection Ha as <-.
        rewrite list_lookup_insert_eq by (eapply lookup_lt_Some; exact Ha0).
        eauto.
      - rewrite list_lookup_insert_ne by exact Hne. eauto. }
    destruct Htask' as (t' & Ht' & Hp' & Has').
    destruct Hagent' as (a' & Ha' & Hcfg').
    exists t', a'. rewrite Hcfg'. repeat split; auto. congruence.
  - rewrite list_fmap_insert. cbn [sup_task set_attempts].
    rewrite list_insert_id; [exact Hdup |].
    rewrite list_lookup_fmap, Hc. reflexivity.
Qed.

Lemma step_dispatch_record (act : Action) (w : World) :
  dispatch_record w -> dispatch_record (step act w).
Proof.
  intros Hrec. pose proof (external_step act w) as Hext.
  pose proof (external_step_agents act w) as Hexta.
  destruct act as [task | cfg now | task | wid wseq | | now | i exec now |].
  6: { cbn [step]. destruct (cycle_exact now w) as (evs & _ & ->). cbn [snd].
       destruct (is_running w); [| exact Hrec].
       exact (dispatch_record_pass now w Hrec). }
  6: { apply dispatch_record_resume. exact Hrec. }
  all: destruct Hext as [Hco [created Hobj]].
  2: { exact (dispatch_record_external _ _ _ _ Hco Hobj Hexta Hrec). }
  all: apply (dispatch_record_external w _ created [] Hco Hobj);
    [rewrite app_nil_r; exact Hexta | exact Hrec].
Qed.

Lemma run_dispatch_record (acts : list Action) (w : World) :
  dispatch_record w -> dispatch_record (run acts w).
Proof.
  revert w. induction acts as [| act acts IH]; intros w Hw; [exact Hw |].
  cbn [run]. apply IH, step_dispatch_record, Hw.
Qed.

(** X15: in every world the orchestrator can reach, no two coroutines hold
    the same task object (a task is dispatched at most once in its life);
    the task a coroutine holds is past [pending] and its [assigned_agent] is
    the identifier of the agent that coroutine holds, whose [retry_attempts]
    is the coroutine's ceiling. *)
Theorem task_dispatched_once (w : World) :
  reachable w ->
  NoDup (sup_task <$> coroutines w)
  /\ forall c,
       c ∈ coroutines w ->
       exists t a,
         task_objects w !! sup_task c = Some t /\ status t <> pending
         /\ agent_objects w !! sup_agent c = Some a
         /\ assigned_agent t = Some (agent_id (config a))
         /\ sup_max_retries c = retry_attempts (config a).
Proof.
  intros [acts ->].
  assert (Hrec : dispatch_record (run acts AIOrchestrator__init__)).
  { apply run_dispatch_record. split; [| constructor].
    intros i c Hc. destruct i; discriminate Hc. }
  destruct Hrec as [Hrec Hdup]. split; [exact Hdup |].
  intros c Hc. apply list_elem_of_lookup in Hc. destruct Hc as [i Hc].
  exact (Hrec i c Hc).
Qed.

Lemma task_dispatched_once_witness :
  NoDup (sup_task <$> coroutines
           (run [RegisterAgent token_agent_config 0; NewTask (token_task 0);
                 ScheduleTask 0%nat; Start; Cycle 1; Cycle 11;
                 Resume 0%nat (Returns false) 12; Cycle 21]
              AIOrchestrator__init__)).
Proof.
  refine (proj1 (task_dispatched_once _ _)).
  eexists. reflexivity.
Defined.

(** ** An agent below its threshold *)

Lemma below_threshold_ineligible (w : World) (g : ref) (a : AIAgent) (t : Task) :
  agent_objects w !! g = Some a ->
  (success_rate a < success_threshold (config a))%Q ->
  g ∉ eligible_agents w t.
Proof.
  intros Hg Hlow Hin. unfold eligible_agents in Hin.
  apply list_elem_of_filter in Hin. destruct Hin as [Hel _].
  apply eligible_iff in Hel. destruct Hel as (a' & Ha' & _ & _ & Hle).
  rewrite Hg in Ha'. injection Ha' as <-. lra.
Qed.

Lemma step_lockout (act : Action) (w : World) (g : ref) (a : AIAgent) :
  agent_objects w !! g = Some a ->
  (success_rate a < success_threshold (config a))%Q ->
  idle w g ->
  agent_objects (step act w) !! g = Some a /\ idle (step act w) g.
Proof.
  intros Hg Hlow Hidle. pose proof (external_step act w) as Hext.
  pose proof (external_step_agents act w) as Hexta.
  destruct act as [task | cfg now | task | wid wseq | | now | i exec now |].
  6: { cbn [step]. destruct (cycle_exact now w) as (evs & _ & ->). cbn [snd].
       destruct (is_running w); [| auto].
       destruct (process_pending_tasks_exact now w)
         as (_ & ((Hao & _) & _ & new & Hco & Hnew & _) & _).
       cbn [agent_objects emit]. rewrite Hao. split; [exact Hg |].
       intros c Hc Hlive Heq.
       cbn [coroutines emit] in Hc. rewrite Hco in Hc.
       apply elem_of_app in Hc. destruct Hc as [Hc | Hc];
         [exact (Hidle c Hc Hlive Heq) |].
       rewrite Forall_forall in Hnew.
       destruct (Hnew c Hc) as (t & a' & _ & Hfor & _).
       apply selected_for_Some in Hfor. destruct Hfor as (_ & _ & Hsel & _).
       apply select_some_eligible in Hsel. rewrite Heq in Hsel.
       exact (below_threshold_ineligible w g a t Hg Hlow Hsel). }
  6: { cbn [step].
       destruct (resume_exact i exec now w)
         as [-> | (c & attempt & rest & a0 & t0 & Hc & Hatt & Ha0 & Ht0 & ->)];
         [auto |].
       assert (Hne : sup_agent c <> g).
       { apply Hidle; [eapply list_elem_of_lookup_2; exact Hc |].
         unfold live. rewrite Hatt. discriminate. }
       cbn [agent_objects coroutines emit with_coroutines with_task_objects
            with_agent_objects].
       split; [rewrite list_lookup_insert_ne by exact Hne; exact Hg |].
       intros cj Hcj Hlive. apply list_elem_of_lookup in Hcj.
       destruct Hcj as [j Hj]. apply list_lookup_insert_Some in Hj.
       destruct Hj as [(_ & <- & _) | [_ Hj]]; [exact Hne |].
       apply Hidle; [eapply list_elem_of_lookup_2; exact Hj | exact Hlive]. }
  all: destruct Hext as [Hco _]; unfold idle; rewrite Hco, Hexta;
    auto using lookup_app_l_Some.
Qed.

(** X16: an agent whose success rate has fallen below its own threshold
    while no coroutine with attempts left holds it is locked out for good:
    it is eligible for no task, so nothing is dispatched to it, so its
    statistics never change again, whatever steps follow. *)
Theorem below_threshold_is_locked_out (acts : list Action) (w : World)
    (g : ref) (a : AIAgent) :
  agent_objects w !! g = Some a ->
  (success_rate a < success_threshold (config a))%Q ->
  idle w g ->
  agent_objects (run acts w) !! g = Some a
  /\ idle (run acts w) g
  /\ forall t, g ∉ eligible_agents (run acts w) t.
Proof.
  revert w. induction acts as [| act acts IH]; intros w Hg Hlow Hidle.
  - split; [exact Hg |]. split; [exact Hidle |].
    intros t. exact (below_threshold_ineligible w g a t Hg Hlow).
  - destruct (step_lockout act w g a Hg Hlow Hidle) as [Hg' Hidle'].
    cbn [run]. apply IH; assumption.
Qed.

Lemma below_threshold_is_locked_out_witness :
  let w :=
    run [RegisterAgent token_agent_config 0; NewTask (token_task 0);
         ScheduleTask 0%nat; Start; Cycle 1;
         Resume 0%nat (Returns false) 2; Resume 0%nat (Returns false) 4;
         Resume 0%nat (Returns false) 7; Resume 0%nat (Returns false) 12]
      AIOrchestrator__init__ in
  exists a,
    agent_objects w !! 0%nat = Some a
    /\ agent_objects
         (run [NewTask (token_task 20); ScheduleTask 1%nat; Cycle 21; Cycle 31]
            w) !! 0%nat = Some a.
Proof.
  cbv zeta. eexists. split; [reflexivity |].
  refine (proj1 (below_threshold_is_locked_out
                   [NewTask (token_task 20); ScheduleTask 1%nat; Cycle 21;
                    Cycle 31] _ 0%nat _ _ _ _)).
  - reflexivity.
  - vm_compute. reflexivity.
  - intros c Hc Hlive. vm_compute in Hc.
    apply list_elem_of_singleton in Hc. subst c. exfalso. apply Hlive.
    reflexivity.
Defined.

(** ** What the health monitor reports *)

Lemma monitor_agent_exact (now : datetime) (name : string) (g : ref)
    (w : World) :
  monitor_agent now name g w
  = (Returns tt,
     emit (match agent_objects w !! g with
           | Some a => warnings now name a
           | None => []
           end) w).
Proof.
  unfold monitor_agent, warnings. unfold_monad.
  destruct (agent_objects w !! g) as [a |]; [| rewrite emit_nil; reflexivity].
  destruct (one_hour <? now - last_execution a);
    destruct (Qlt_bool (success_rate a) 80 && (10 <? executed_tasks a));
    unfold modify; cbn [app]; rewrite ?emit_emit, ?emit_nil; reflexivity.
Qed.

Lemma monitor_agents_exact (now : datetime) (w : World) :
  _monitor_agents now w
  = (Returns tt,
     emit (concat
             (map (fun item =>
                     match agent_objects w !! item.2 with
                     | Some a => warnings now item.1 a
                     | None => []
                     end) (dict_items (agents w)))) w).
Proof.
  unfold _monitor_agents. unfold_monad.
  generalize (dict_items (agents w)). intros items.
  assert (Hgen : forall w',
            agent_objects w' = agent_objects w ->
            for_each items (fun item => monitor_agent now item.1 item.2) w'
            = (Returns tt,
               emit (concat
                       (map (fun item =>
                               match agent_objects w !! item.2 with
                               | Some a => warnings now item.1 a
                               | None => []
                               end) items)) w')).
  { induction items as [| item items IH]; intros w' Hw'.
    - simpl. rewrite emit_nil. reflexivity.
    - cbn [for_each map concat]. unfold mbind, M_bind.
      rewrite monitor_agent_exact, Hw'. rewrite IH by exact Hw'.
      rewrite emit_emit. reflexivity. }
  apply Hgen. reflexivity.
Qed.

Lemma warnings_nil (now : datetime) (name : string) (a : AIAgent) :
  warnings now name a = [] <-> healthy now a.
Proof.
  unfold warnings, healthy.
  destruct (Z.ltb_spec one_hour (now - last_execution a)) as [Hlate | Hok].
  - split; [discriminate | intros [H _]; lia].
  - cbn [app].
    destruct (Qlt_bool (success_rate a) 80) eqn:Hq;
      destruct (Z.ltb_spec 10 (executed_tasks a)) as [Hmany | Hfew]; cbn [andb].
    + split; [discriminate |]. intros [_ [H | H]]; [| lia].
      apply Qlt_bool_iff in Hq. lra.
    + split; [auto |]. reflexivity.
    + split; [| reflexivity]. intros _. split; [exact Hok |]. left.
      destruct (Qlt_le_dec (success_rate a) 80) as [Hlt | Hle]; [| exact Hle].
      apply Qlt_bool_iff in Hlt. congruence.
    + split; [auto |]. reflexivity.
Qed.

Lemma concat_nil_iff {A} (ls : list (list A)) :
  concat ls = [] <-> Forall (fun l => l = []) ls.
Proof.
  induction ls as [| l ls IH]; simpl.
  - split; [constructor | reflexivity].
  - rewrite Forall_cons, <- IH. split.
    + intros H. apply app_eq_nil in H. exact H.
    + intros [-> ->]. reflexivity.
Qed.

(** X17: [_monitor_agents] logs nothing exactly when every registered agent
    has executed within the last hour and either has a success rate of at
    least 80 or at most 10 executed tasks.  [executed_tasks] counting
    successes only, an agent that has succeeded ten times or fewer is never
    reported for its success rate, however low. *)
Theorem monitor_silent_iff_healthy (now : datetime) (w : World) :
  trace (_monitor_agents now w).2 = trace w
  <-> forall name g a,
        (name, g) ∈ dict_items (agents w) ->
        agent_objects w !! g = Some a -> healthy now a.
Proof.
  rewrite monitor_agents_exact. cbn [snd trace emit].
  set (items := dict_items (agents w)).
  split.
  - intros Htrace name g a Hin Hg.
    rewrite <- (app_nil_r (trace w)) in Htrace at 2.
    apply app_inv_head in Htrace. apply concat_nil_iff in Htrace.
    rewrite Forall_forall in Htrace.
    specialize (Htrace (warnings now name a)).
    apply warnings_nil with (name := name). apply Htrace.
    apply list_elem_of_In, in_map_iff. exists (name, g). simpl.
    rewrite Hg. split; [reflexivity | apply list_elem_of_In; exact Hin].
  - intros Hall.
    rewrite (proj2 (concat_nil_iff _)); [apply app_nil_r |].
    apply Forall_forall. intros l Hl.
    apply list_elem_of_In, in_map_iff in Hl.
    destruct Hl as ([name g] & <- & Hin). simpl.
    destruct (agent_objects w !! g) as [a |] eqn:Hg; [| reflexivity].
    apply warnings_nil. apply (Hall name g a); [| exact Hg].
    apply list_elem_of_In. exact Hin.
Qed.

(** ** Thresholds and registration *)

(** X18: an agent configured with a success threshold above 100 is never
    selected: in every world the orchestrator can reach its success rate is
    at most 100, so it is eligible for no task. *)
Theorem threshold_above_100_never_eligible (w : World) (g : ref) (a : AIAgent)
    (t : Task) :
  reachable w -> agent_objects w !! g = Some a ->
  (100 < success_threshold (config a))%Q ->
  g ∉ eligible_agents w t.
Proof.
  intros [acts ->] Hg Hhigh.
  pose proof (run_agents_sound acts AIOrchestrator__init__
                (Forall_nil_2 sound_agent)) as H.
  rewrite Forall_lookup in H. destruct (H g a Hg) as (_ & _ & _ & Hle).
  apply (below_threshold_ineligible _ g a t Hg). lra.
Qed.

Lemma threshold_above_100_never_eligible_witness :
  let strict :=
    {| agent_id := "strict"; agent_type := "TOKEN_MANAGEMENT"; priority := 9;
       capabilities := ["TOKEN_DISTRIBUTION"]; max_gas := 2000000;
       success_threshold := 101; retry_attempts := 3 |} in
  0%nat ∉ eligible_agents
            (run [RegisterAgent strict 0] AIOrchestrator__init__) (token_task 0).
Proof.
  cbv zeta.
  refine (threshold_above_100_never_eligible
            (run [RegisterAgent _ 0] AIOrchestrator__init__) 0%nat _ _ _ _ _).
  - eexists. reflexivity.
  - reflexivity.
  - simpl. lra.
Defined.

Lemma dict_set_value {V} (d : dict V) (k : string) (v : V) :
  v ∈ dict_values (dict_set d k v).
Proof.
  unfold dict_values. induction d as [| [k' v'] d IH]; simpl.
  - constructor.
  - destruct (String.eqb k' k); rewrite fmap_cons; simpl.
    + constructor.
    + constructor. exact IH.
Qed.

(** X19: [register_agent] makes the agent it creates eligible at once for
    every task type among its capabilities, provided its threshold is at
    most 100: a new agent starts active with a success rate of 100,
    whatever the record of an agent registered earlier under the same
    identifier. *)
Theorem registered_agent_is_eligible (cfg : AgentConfig) (now : datetime)
    (w : World) (t : Task) :
  task_type t ∈ capabilities cfg ->
  (success_threshold cfg <= 100)%Q ->
  length (agent_objects w) ∈ eligible_agents (register_agent cfg now w).2 t.
Proof.
  intros Hcap Hthr. unfold eligible_agents. apply list_elem_of_filter.
  split.
  - apply eligible_iff. exists (AIAgent__init__ cfg now). simpl.
    rewrite lookup_app_r by lia. rewrite Nat.sub_diag. auto.
  - simpl. apply dict_set_value.
Qed.

Lemma registered_agent_is_eligible_witness :
  let w :=
    run [RegisterAgent token_agent_config 0; NewTask (token_task 0);
         ScheduleTask 0%nat; Start; Cycle 1;
         Resume 0%nat (Returns false) 2; Resume 0%nat (Returns false) 4;
         Resume 0%nat (Returns false) 7; Resume 0%nat (Returns false) 12]
      AIOrchestrator__init__ in
  1%nat ∈ eligible_agents (register_agent token_agent_config 13 w).2
            (token_task 20).
Proof.
  cbv zeta.
  refine (registered_agent_is_eligible token_agent_config 13
            (run [RegisterAgent token_agent_config 0; NewTask (token_task 0);
                  ScheduleTask 0%nat; Start; Cycle 1;
                  Resume 0%nat (Returns false) 2;
                  Resume 0%nat (Returns false) 4;
                  Resume 0%nat (Returns false) 7;
                  Resume 0%nat (Returns false) 12]
               AIOrchestrator__init__) (token_task 20) _ _).
  - repeat constructor.
  - simpl. lra.
Defined.
